(** * CampusBridge: the collaborative code-room relay

    A shallow embedding of the WebSocket relay of [server/routes.ts]
    ([registerRoutes], lines 16-115): the process-wide registry [rooms], the
    per-connection variables [roomId] and [userId], the [message] and [close]
    handlers and [broadcastToRoom].

    Modelling choices.
    - A connection object [ws] is its identity, a natural number.
    - [rooms : Record<string, Set<any>>] is a plain object used as a
      dictionary: a finite map from its own keys to member sets, read
      through [rooms_get], which also finds the properties every object
      inherits from [Object.prototype] (["constructor"], ["toString"], ...).
      Such a value is truthy and is not a [Set]: calling [add], [delete] or
      [forEach] on it throws a [TypeError].  A JS [Set] iterates in
      insertion order, so a set is a duplicate-free list: [Set_add] appends
      a new element, [Set_delete] removes it.
    - The envelope read from [JSON.parse] has the fields of the wire format:
      [type], [roomId] (a string), [userId] (a number) and the optional
      payload fields, which are copied into the outbound envelopes.
    - The transport (the [ws] library) and the clock are external: every
      handler runs against a [Transport] snapshot that gives each
      connection's [readyState], whether [send] on it throws, and the clock
      readings.
    - A handler returns the new state, the calls to [send] in the order they
      were made (a call that throws is the last one), and how it ended:
      normally, in the [catch] block of the message handler, or with an
      exception that leaves the handler. *)

From Stdlib Require Import ZArith.
From stdpp Require Import base gmap strings list.

Open Scope string_scope.
Open Scope list_scope.

(** ** Data *)

Definition conn := nat.

(** The values that meet at [client === excludeUserId]. *)
Module Js.

Inductive value :=
| Null
| Num (n : Z)
| Ref (c : conn).

Definition truthy (v : value) : bool :=
  match v with
  | Null => false
  | Num n => negb (n =? 0)%Z
  | Ref _ => true
  end.

Definition strict_eq (a b : value) : bool :=
  match a, b with
  | Null, Null => true
  | Num x, Num y => (x =? y)%Z
  | Ref x, Ref y => (x =? y)%nat
  | _, _ => false
  end.

End Js.

(** The decoded inbound envelope, [data] in the source. *)
Module data.

Record t := mk {
  type : string;
  roomId : string;
  userId : Z;
  username : option string;
  code : option string;
  language : option string;
  message : option string
}.

End data.

(** What the handler gets from [JSON.parse(message.toString())]: no
    envelope ([JSON.parse] throws, or yields [null], on which reading
    [data.type] throws), or an envelope. *)
Inductive Inbound :=
| Undecodable
| Decoded (d : data.t).

(** Outbound envelopes, one constructor per [type]. *)
Inductive ServerMsg :=
| user_joined (userId : Z) (username : option string) (timestamp : string)
| room_info (roomId : string) (userCount : nat) (timestamp : string)
| code_update (code language : option string) (userId : Z)
              (username : option string) (timestamp : string)
| chat_message (message : option string) (userId : Z)
               (username : option string) (timestamp : string)
| user_left (userId : Z) (timestamp : string).

(** The variables each connection closes over:
    [let roomId = ""; let userId = 0;]. *)
Record ConnVars := { roomId : string; userId : Z }.

Definition fresh_vars : ConnVars := {| roomId := ""; userId := 0 |}.

Record State := {
  rooms : gmap string (list conn);
  conns : gmap conn ConnVars
}.

Definition init : State := {| rooms := ∅; conns := ∅ |}.

Definition vars_of (σ : State) (ws : conn) : ConnVars :=
  default fresh_vars (conns σ !! ws).

(** The external world a handler runs in.  [now i] is the reading of the
    [i]-th [new Date().toISOString()] of the handler. *)
Record Transport := {
  readyState : conn → Z;
  send_throws : conn → bool;
  now : nat → string
}.

Definition OPEN : Z := 1.

Definition is_open (tp : Transport) (c : conn) : bool :=
  (readyState tp c =? OPEN)%Z.

Inductive Outcome :=
| Completed
| Caught
| Uncaught.

Record Result := {
  state : State;
  sent : list (conn * ServerMsg);
  outcome : Outcome
}.

(** ** JS [Set] operations *)

Definition Set_add (ws : conn) (s : list conn) : list conn :=
  if decide (ws ∈ s) then s else s ++ [ws].

Definition Set_delete (ws : conn) (s : list conn) : list conn :=
  filter (λ x, x ≠ ws) s.

(** ** Reading the registry *)

(** The names of the properties of [Object.prototype], which the object
    literal [{}] of line 19 inherits. *)
Definition Object_prototype : list string :=
  [ "constructor"; "__defineGetter__"; "__defineSetter__"; "hasOwnProperty";
    "__lookupGetter__"; "__lookupSetter__"; "isPrototypeOf";
    "propertyIsEnumerable"; "toString"; "valueOf"; "__proto__";
    "toLocaleString" ].

(** The value of [rooms[roomId]]: a [Set] stored under an own key, a value
    inherited from [Object.prototype], or [undefined]. *)
Inductive Lookup :=
| IsSet (s : list conn)
| Inherited
| Undefined.

#[global] Instance Lookup_eq_dec : EqDecision Lookup.
Proof. solve_decision. Defined.

Definition rooms_get (rms : gmap string (list conn)) (roomId : string) : Lookup :=
  match rms !! roomId with
  | Some s => IsSet s
  | None => if decide (roomId ∈ Object_prototype) then Inherited else Undefined
  end.

(** [roomId] is no own key and names an inherited property. *)
Definition inherited (rms : gmap string (list conn)) (roomId : string) : Prop :=
  rms !! roomId = None ∧ roomId ∈ Object_prototype.

(** ** [broadcastToRoom] *)

(** The body of [rooms[roomId].forEach((client) => ...)].  The result is the
    list of [send] calls and whether the last of them threw, which ends the
    iteration. *)
Fixpoint forEach (tp : Transport) (message : ServerMsg)
    (excludeUserId : Js.value) (clients : list conn)
  : list (conn * ServerMsg) * bool :=
  match clients with
  | [] => ([], false)
  | client :: rest =>
      if is_open tp client then
        if Js.truthy excludeUserId && Js.strict_eq (Js.Ref client) excludeUserId
        then forEach tp message excludeUserId rest
        else if send_throws tp client then ([(client, message)], true)
        else
          let '(out, threw) := forEach tp message excludeUserId rest in
          ((client, message) :: out, threw)
      else forEach tp message excludeUserId rest
  end.

(** [broadcastToRoom(roomId, message, excludeUserId = null)], lines 105-115:
    nothing happens when [rooms[roomId]] is undefined; on an inherited
    value [rooms[roomId].forEach] is not a function and the call throws
    before any [send]. *)
Definition broadcastToRoom (rms : gmap string (list conn)) (tp : Transport)
    (roomId : string) (message : ServerMsg) (excludeUserId : Js.value)
  : list (conn * ServerMsg) * bool :=
  match rooms_get rms roomId with
  | Undefined => ([], false)
  | Inherited => ([], true)
  | IsSet members => forEach tp message excludeUserId members
  end.

(** ** The [message] handler *)

(** [rooms[roomId].size]. *)
Definition Set_size (rms : gmap string (list conn)) (roomId : string) : nat :=
  length (default [] (rms !! roomId)).

(** The [join] branch, lines 30-58: record [roomId] and [userId], create the
    room if [rooms[roomId]] is falsy, add [ws], broadcast [user_joined] with
    [userId] as [excludeUserId], then send [room_info] to [ws] (with no
    [readyState] test).  An exception ends the branch in the [catch] block;
    the changes made before it stay.  On an inherited value no room is
    created and [rooms[roomId].add] throws. *)
Definition on_join (σ : State) (tp : Transport) (ws : conn) (d : data.t)
  : Result :=
  let vars := {| roomId := data.roomId d; userId := data.userId d |} in
  let rooms1 :=
    match rooms_get (rooms σ) (roomId vars) with
    | Undefined => <[roomId vars := []]> (rooms σ)
    | _ => rooms σ
    end in
  match rooms_get rooms1 (roomId vars) with
  | IsSet _ =>
      let rooms2 := alter (Set_add ws) (roomId vars) rooms1 in
      let σ' := {| rooms := rooms2; conns := <[ws := vars]> (conns σ) |} in
      let '(out, threw) :=
        broadcastToRoom rooms2 tp (roomId vars)
          (user_joined (data.userId d) (data.username d) (now tp 0))
          (Js.Num (userId vars)) in
      if threw then {| state := σ'; sent := out; outcome := Caught |}
      else
        let info :=
          room_info (roomId vars) (Set_size rooms2 (roomId vars)) (now tp 1) in
        {| state := σ';
           sent := out ++ [(ws, info)];
           outcome := if send_throws tp ws then Caught else Completed |}
  | _ =>
      {| state := {| rooms := rooms1; conns := <[ws := vars]> (conns σ) |};
         sent := [];
         outcome := Caught |}
  end.

(** The [code_update] branch, lines 59-69.  The room is the connection's
    [roomId] variable; [data.roomId] is not read. *)
Definition on_code_update (σ : State) (tp : Transport) (ws : conn) (d : data.t)
  : Result :=
  let vars := vars_of σ ws in
  let '(out, threw) :=
    broadcastToRoom (rooms σ) tp (roomId vars)
      (code_update (data.code d) (data.language d) (data.userId d)
         (data.username d) (now tp 0))
      (Js.Num (userId vars)) in
  {| state := σ; sent := out; outcome := if threw then Caught else Completed |}.

(** The [chat_message] branch, lines 70-79: no [excludeUserId]. *)
Definition on_chat_message (σ : State) (tp : Transport) (ws : conn) (d : data.t)
  : Result :=
  let vars := vars_of σ ws in
  let '(out, threw) :=
    broadcastToRoom (rooms σ) tp (roomId vars)
      (chat_message (data.message d) (data.userId d) (data.username d)
         (now tp 0))
      Js.Null in
  {| state := σ; sent := out; outcome := if threw then Caught else Completed |}.

(** [ws.on("message", ...)], lines 26-83: [JSON.parse] and the dispatch on
    [data.type] run inside [try]; an unknown [type] matches no branch. *)
Definition on_message (σ : State) (tp : Transport) (ws : conn) (m : Inbound)
  : Result :=
  match m with
  | Undecodable => {| state := σ; sent := []; outcome := Caught |}
  | Decoded d =>
      if decide (data.type d = "join") then on_join σ tp ws d
      else if decide (data.type d = "code_update") then on_code_update σ tp ws d
      else if decide (data.type d = "chat_message") then on_chat_message σ tp ws d
      else {| state := σ; sent := []; outcome := Completed |}
  end.

(** ** The [close] handler *)

(** [ws.on("close", ...)], lines 85-102, which has no [try]: when [roomId]
    and [rooms[roomId]] are truthy, remove [ws] from the room its [roomId]
    names, broadcast [user_left], and delete the room if it is empty.  An
    exception from the broadcast leaves the handler before the clean-up; on
    an inherited value [rooms[roomId].delete] throws at once. *)
Definition on_close (σ : State) (tp : Transport) (ws : conn) : Result :=
  let vars := vars_of σ ws in
  if decide (roomId vars ≠ "" ∧ rooms_get (rooms σ) (roomId vars) ≠ Undefined)
  then
    match rooms_get (rooms σ) (roomId vars) with
    | IsSet _ =>
        let rooms1 := alter (Set_delete ws) (roomId vars) (rooms σ) in
        let '(out, threw) :=
          broadcastToRoom rooms1 tp (roomId vars)
            (user_left (userId vars) (now tp 0)) Js.Null in
        if threw then
          {| state := {| rooms := rooms1; conns := conns σ |};
             sent := out; outcome := Uncaught |}
        else
          let rooms2 :=
            if decide (Set_size rooms1 (roomId vars) = 0)
            then delete (roomId vars) rooms1 else rooms1 in
          {| state := {| rooms := rooms2; conns := conns σ |};
             sent := out; outcome := Completed |}
    | _ => {| state := σ; sent := []; outcome := Uncaught |}
    end
  else {| state := σ; sent := []; outcome := Completed |}.

(** ** The event loop *)

(** The events of the connections, each handled to completion in the state
    left by the previous one. *)
Inductive Event :=
| Message (ws : conn) (m : Inbound)
| Close (ws : conn).

Definition step (σ : State) (tp : Transport) (e : Event) : Result :=
  match e with
  | Message ws m => on_message σ tp ws m
  | Close ws => on_close σ tp ws
  end.

Fixpoint run (σ : State) (evs : list (Transport * Event)) : State :=
  match evs with
  | [] => σ
  | (tp, e) :: evs' => run (state (step σ tp e)) evs'
  end.

Inductive reachable : State → Prop :=
| reach_init : reachable init
| reach_step σ tp e : reachable σ → reachable (state (step σ tp e)).

(** ** What a handler does to the state

    [join_rooms] and [leave_rooms] are the registry after the membership
    change of a join and of a close; the lemmas [on_join_state] and
    [on_close_rooms] below relate them to the handlers. *)

Definition join_rooms (rms : gmap string (list conn)) (r : string) (ws : conn)
  : gmap string (list conn) :=
  if decide (inherited rms r) then rms
  else <[r := Set_add ws (default [] (rms !! r))]> rms.

Definition leave_rooms (rms : gmap string (list conn)) (r : string) (ws : conn)
  : gmap string (list conn) :=
  match rms !! r with
  | Some s =>
      if decide (Set_delete ws s = []) then delete r rms
      else <[r := Set_delete ws s]> rms
  | None => rms
  end.

Definition join_vars (d : data.t) : ConnVars :=
  {| roomId := data.roomId d; userId := data.userId d |}.

(** ** Predicates on transports, messages and registries *)

(** No [send] throws. *)
Definition no_throw (tp : Transport) : Prop := ∀ c, send_throws tp c = false.

(** One [send] of [message] to each connection of [l], in order. *)
Definition to_all (message : ServerMsg) (l : list conn) : list (conn * ServerMsg) :=
  (λ c, (c, message)) <$> l.

Definition open_members (tp : Transport) (s : list conn) : list conn :=
  filter (λ c, is_open tp c) s.

Definition is_room_info (p : conn * ServerMsg) : bool :=
  match p.2 with room_info _ _ _ => true | _ => false end.

Definition no_empty_room (rms : gmap string (list conn)) : Prop :=
  map_Forall (λ _ s, s ≠ []) rms.

Definition rooms_NoDup (rms : gmap string (list conn)) : Prop :=
  map_Forall (λ _ s, NoDup s) rms.

Definition member (rms : gmap string (list conn)) (r : string) (c : conn) : Prop :=
  ∃ s, rms !! r = Some s ∧ c ∈ s.

Definition at_most_one_room (rms : gmap string (list conn)) : Prop :=
  ∀ c r1 r2, member rms r1 c → member rms r2 c → r1 = r2.

Definition unregistered (σ : State) (ws : conn) : Prop :=
  map_Forall (λ _ s, ws ∉ s) (rooms σ).

Definition known_type (t : string) : Prop :=
  t = "join" ∨ t = "code_update" ∨ t = "chat_message".

(** An inbound event that must be dropped: it cannot be decoded, its [type]
    is not one of the three known ones, or it is a [code_update] or
    [chat_message] on a connection whose [roomId] names no room of the
    registry. *)
Definition out_of_context (σ : State) (ws : conn) (m : Inbound) : Prop :=
  match m with
  | Undecodable => True
  | Decoded d =>
      ¬ known_type (data.type d)
      ∨ ((data.type d = "code_update" ∨ data.type d = "chat_message")
         ∧ rooms σ !! roomId (vars_of σ ws) = None)
  end.

(** The envelope [d] with another [roomId] field. *)
Definition with_roomId (r : string) (d : data.t) : data.t :=
  data.mk (data.type d) r (data.userId d) (data.username d) (data.code d)
    (data.language d) (data.message d).

(** ** Traces of events *)

Definition event_conn (e : Event) : conn :=
  match e with
  | Message ws _ => ws
  | Close ws => ws
  end.

(** The envelope of a join event and the connection it arrived on. *)
Definition join_of (e : Event) : option (conn * data.t) :=
  match e with
  | Message ws (Decoded d) =>
      if decide (data.type d = "join") then Some (ws, d) else None
  | _ => None
  end.

(** [track r c acc e]: whether connection [c] has joined room [r] and not
    left since, after event [e], when [acc] says so before it. *)
Definition track (r : string) (c : conn) (acc : bool) (e : Event) : bool :=
  match e with
  | Close ws => if decide (ws = c) then false else acc
  | _ =>
      match join_of e with
      | Some (ws, d) =>
          if decide (ws = c ∧ data.roomId d = r) then true else acc
      | None => acc
      end
  end.

Definition joined_not_left (evs : list (Transport * Event)) (r : string)
    (c : conn) : bool :=
  foldl (λ acc te, track r c acc te.2) false evs.

Definition trace_conns (evs : list (Transport * Event)) : list conn :=
  remove_dups ((λ te, event_conn te.2) <$> evs).

(** The number of connections that joined room [r] and have not since left
    it. *)
Definition present_count (evs : list (Transport * Event)) (r : string) : nat :=
  length (filter (λ c, joined_not_left evs r c) (trace_conns evs)).

(** The variables recorded at the most recent join of [ws]. *)
Definition last_join (evs : list (Transport * Event)) (ws : conn) : ConnVars :=
  foldl (λ acc te,
           match join_of te.2 with
           | Some (c, d) => if decide (c = ws) then join_vars d else acc
           | None => acc
           end) fresh_vars evs.

(** [guarded P σ evs]: every event of the trace satisfies [P] in the state it
    arrives in. *)
Fixpoint guarded (P : State → Event → Prop) (σ : State)
    (evs : list (Transport * Event)) : Prop :=
  match evs with
  | [] => True
  | (tp, e) :: evs' => P σ e ∧ guarded P (state (step σ tp e)) evs'
  end.

(** The contract of [join]: a non-empty room identifier, and a participant
    that is not registered in any room. *)
Definition join_allowed (σ : State) (e : Event) : Prop :=
  match join_of e with
  | Some (ws, d) => data.roomId d ≠ "" ∧ unregistered σ ws
  | None => True
  end.

(** A weaker condition: the participant is registered in no room other than
    the one it joins. *)
Definition join_same_room (σ : State) (e : Event) : Prop :=
  match join_of e with
  | Some (ws, d) => map_Forall (λ r s, ws ∈ s → r = data.roomId d) (rooms σ)
  | None => True
  end.

#[global] Instance join_allowed_dec σ e : Decision (join_allowed σ e).
Proof. unfold join_allowed. destruct (join_of e) as [[ws d] |]; apply _. Defined.

#[global] Instance join_same_room_dec σ e : Decision (join_same_room σ e).
Proof. unfold join_same_room. destruct (join_of e) as [[ws d] |]; apply _. Defined.

#[global] Instance guarded_dec P `{∀ σ e, Decision (P σ e)} σ evs :
  Decision (guarded P σ evs).
Proof.
  revert σ. induction evs as [| [tp e] evs IH]; intros σ; simpl; apply _.
Defined.

(** No own key of the registry names an inherited property. *)
Definition proper_keys (rms : gmap string (list conn)) : Prop :=
  map_Forall (λ r _, r ∉ Object_prototype) rms.

(** The registry agrees with the history: the members of a room whose name
    is not inherited are the connections that joined it and have not left,
    and a member's [roomId] names its room. *)
Definition tracks (σ : State) (evs : list (Transport * Event)) : Prop :=
  (∀ r c, r ∉ Object_prototype →
          joined_not_left evs r c = true ↔ member (rooms σ) r c)
  ∧ (∀ r c, member (rooms σ) r c → roomId (vars_of σ c) = r ∧ r ≠ "")
  ∧ proper_keys (rooms σ).

(** ** Sample transports, envelopes and traces *)

(** Every connection is open and no [send] throws. *)
Definition all_open : Transport :=
  {| readyState := λ _, OPEN; send_throws := λ _, false; now := λ _, "t" |}.

(** Every connection is open and [send] on connection [0] throws. *)
Definition first_throws : Transport :=
  {| readyState := λ _, OPEN;
     send_throws := λ c, bool_decide (c = 0);
     now := λ _, "t" |}.

(** Connection [1] is closing, the others are open; no [send] throws. *)
Definition one_closing : Transport :=
  {| readyState := λ c, if bool_decide (c = 1) then 2%Z else OPEN;
     send_throws := λ _, false;
     now := λ _, "t" |}.

Definition join_msg (r : string) (u : Z) (name : string) : Inbound :=
  Decoded (data.mk "join" r u (Some name) None None None).

Definition code_msg (r : string) (u : Z) (name code lang : string) : Inbound :=
  Decoded (data.mk "code_update" r u (Some name) (Some code) (Some lang) None).

Definition chat_msg (r : string) (u : Z) (name text : string) : Inbound :=
  Decoded (data.mk "chat_message" r u (Some name) None None (Some text)).

(** Connections [0], [1] and [2] (A, B and C) join room R, in this order. *)
Definition three_in_R : list (Transport * Event) :=
  [ (all_open, Message 0 (join_msg "R" 10 "A"));
    (all_open, Message 1 (join_msg "R" 11 "B"));
    (all_open, Message 2 (join_msg "R" 12 "C")) ].

(** A, B and C are in room R and connection [3] is in room S. *)
Definition two_rooms : list (Transport * Event) :=
  three_in_R ++ [ (all_open, Message 3 (join_msg "S" 13 "D")) ].

(** A and B join R. *)
Definition two_in_R : list (Transport * Event) :=
  [ (all_open, Message 0 (join_msg "R" 10 "A"));
    (all_open, Message 1 (join_msg "R" 11 "B")) ].

(** A joins R, B joins R, A leaves, C joins R, B chats, C leaves: B is
    left. *)
Definition come_and_go : list (Transport * Event) :=
  [ (all_open, Message 0 (join_msg "R" 10 "A"));
    (all_open, Message 1 (join_msg "R" 11 "B"));
    (all_open, Close 0);
    (all_open, Message 2 (join_msg "R" 12 "C"));
    (all_open, Message 1 (chat_msg "R" 11 "B" "hi"));
    (all_open, Close 2) ].

(** Connection [0] joins R1 and then R2. *)
Definition double_join : list (Transport * Event) :=
  [ (all_open, Message 0 (join_msg "R1" 10 "A"));
    (all_open, Message 0 (join_msg "R2" 10 "A")) ].

(** ** Further predicates and samples *)



(** Connection [0] joins the room named by the empty string, closes, and
    connection [1] joins it. *)
Definition empty_named_room : list (Transport * Event) :=
  [ (all_open, Message 0 (join_msg "" 10 "A"));
    (all_open, Close 0);
    (all_open, Message 1 (join_msg "" 11 "B")) ].

(** * Lemmas *)

(** ** Properties of the [Set] operations *)

Section SetOps.

Implicit Types (s : list conn) (c ws : conn).

Lemma elem_of_Set_add c ws s : c ∈ Set_add ws s ↔ c = ws ∨ c ∈ s.
Proof.
  unfold Set_add. case_decide as Hin.
  - split; [auto | intros [-> | ?]; done].
  - rewrite elem_of_app, list_elem_of_singleton. tauto.
Qed.

Lemma NoDup_Set_add ws s : NoDup s → NoDup (Set_add ws s).
Proof.
  intros Hnd. unfold Set_add. case_decide as Hin; [done |].
  apply NoDup_app. split_and!; [done | | apply NoDup_singleton].
  intros x Hx ->%list_elem_of_singleton. done.
Qed.

Lemma Set_add_nonempty ws s : Set_add ws s ≠ [].
Proof.
  unfold Set_add. case_decide as Hin.
  - intros ->. by apply not_elem_of_nil in Hin.
  - by destruct s.
Qed.

Lemma Set_add_member ws s : ws ∈ s → Set_add ws s = s.
Proof. intros Hin. unfold Set_add. by rewrite decide_True. Qed.

Lemma elem_of_Set_delete c ws s : c ∈ Set_delete ws s ↔ c ≠ ws ∧ c ∈ s.
Proof. unfold Set_delete. by rewrite list_elem_of_filter. Qed.

Lemma NoDup_Set_delete ws s : NoDup s → NoDup (Set_delete ws s).
Proof. apply NoDup_filter. Qed.



End SetOps.

(** ** Properties of [rooms_get] *)

Lemma rooms_get_Some rms r s : rms !! r = Some s → rooms_get rms r = IsSet s.
Proof. intros Hs. unfold rooms_get. by rewrite Hs. Qed.

Lemma rooms_get_IsSet rms r s : rooms_get rms r = IsSet s ↔ rms !! r = Some s.
Proof.
  unfold rooms_get. destruct (rms !! r) as [s' |].
  - split; by intros [= ->].
  - by case_decide.
Qed.

Lemma rooms_get_Inherited rms r : rooms_get rms r = Inherited ↔ inherited rms r.
Proof.
  unfold rooms_get, inherited. destruct (rms !! r) as [s' |].
  - split; [done | by intros [? _]].
  - case_decide; split; try done. by intros [_ ?].
Qed.


Lemma rooms_get_inherited rms r : inherited rms r → rooms_get rms r = Inherited.
Proof. apply rooms_get_Inherited. Qed.


(** ** Properties of [forEach] and [broadcastToRoom] *)

Section Broadcast.

Context (tp : Transport) (message : ServerMsg).

(** The comparison [client === excludeUserId] meets a connection object and a
    number: it is never true, so a numeric [excludeUserId] excludes nobody. *)
Lemma forEach_Num n s :
  forEach tp message (Js.Num n) s = forEach tp message Js.Null s.
Proof.
  induction s as [| c s IH]; [done |].
  cbn [forEach]. rewrite IH.
  replace (Js.strict_eq (Js.Ref c) (Js.Num n)) with false by done.
  by rewrite andb_false_r.
Qed.

Lemma forEach_open_only ex s :
  (∀ c, Js.truthy ex && Js.strict_eq (Js.Ref c) ex = false) →
  (∀ c, c ∈ s → is_open tp c → send_throws tp c = false) →
  forEach tp message ex s = (to_all message (filter (λ c, is_open tp c) s), false).
Proof.
  intros Hex Hok. induction s as [| c s IH]; [done |].
  cbn [forEach]. rewrite IH by (intros; apply Hok; [by right | done]).
  rewrite Hex. destruct (is_open tp c) eqn:Hopen.
  - rewrite Hok; [| by left | by apply Is_true_true_2].
    by rewrite filter_cons_True by (by apply Is_true_true_2).
  - by rewrite filter_cons_False by (by apply Is_true_false_2).
Qed.

Lemma forEach_recipients ex s p :
  p ∈ (forEach tp message ex s).1 → p.1 ∈ s ∧ p.2 = message ∧ is_open tp p.1.
Proof.
  induction s as [| c s IH]; [by intros ?%not_elem_of_nil |].
  cbn [forEach]. destruct (is_open tp c) eqn:Hopen.
  - destruct (Js.truthy ex && Js.strict_eq (Js.Ref c) ex).
    + intros [? ?]%IH. split; [by right | done].
    + destruct (send_throws tp c).
      * simpl. intros ->%list_elem_of_singleton. simpl.
        split_and!; [by left | done | by apply Is_true_true_2].
      * destruct (forEach tp message ex s) as [out threw]. simpl in *.
        intros [-> | Hin]%elem_of_cons.
        -- simpl. split_and!; [by left | done | by apply Is_true_true_2].
        -- apply IH in Hin as [? ?]. split; [by right | done].
  - intros [? ?]%IH. split; [by right | done].
Qed.

Lemma forEach_threw_nonempty ex s :
  (forEach tp message ex s).2 = true → s ≠ [].
Proof. by destruct s. Qed.

End Broadcast.

(** ** The state after a handler

    The registry and the connection variables after a handler do not depend
    on the transport: a [send] that throws never undoes a membership
    change. *)

Lemma alter_Some (rms : gmap string (list conn)) (r : string) f s :
  rms !! r = Some s → alter f r rms = <[r := f s]> rms.
Proof.
  intros Hs. apply map_eq. intros k. rewrite lookup_alter, lookup_insert.
  case_decide; [by rewrite Hs | done].
Qed.

Lemma join_rooms_inherited rms r ws :
  inherited rms r → join_rooms rms r ws = rms.
Proof. intros Hin. unfold join_rooms. by rewrite decide_True. Qed.

Lemma join_rooms_lookup rms r ws k :
  ¬ inherited rms r →
  join_rooms rms r ws !! k
  = if decide (r = k) then Some (Set_add ws (default [] (rms !! r)))
    else rms !! k.
Proof.
  intros Hin. unfold join_rooms. rewrite decide_False by done.
  apply lookup_insert.
Qed.

Lemma join_rooms_lookup_ne rms r ws k :
  r ≠ k → join_rooms rms r ws !! k = rms !! k.
Proof.
  intros Hne. unfold join_rooms. case_decide; [done |].
  by rewrite lookup_insert_ne.
Qed.

Lemma on_join_inherited σ tp ws d :
  inherited (rooms σ) (data.roomId d) →
  on_join σ tp ws d
  = {| state := {| rooms := rooms σ; conns := <[ws := join_vars d]> (conns σ) |};
       sent := [];
       outcome := Caught |}.
Proof.
  intros Hin. unfold on_join. cbn [roomId userId].
  by rewrite !(rooms_get_inherited _ _ Hin).
Qed.

(** Creating the room when [rooms[roomId]] is undefined leaves a [Set] under
    [roomId] unless the name is inherited. *)
Lemma create_then_add rms r ws :
  ¬ inherited rms r →
  let rooms1 := match rooms_get rms r with
                | Undefined => <[r := []]> rms
                | _ => rms
                end in
  (∃ s, rooms_get rooms1 r = IsSet s)
  ∧ alter (Set_add ws) r rooms1 = <[r := Set_add ws (default [] (rms !! r))]> rms.
Proof.
  intros Hin rooms1. unfold rooms1, rooms_get, inherited in *.
  destruct (rms !! r) as [s |] eqn:Hr; simpl.
  - rewrite Hr. split; [eauto |]. by apply alter_Some.
  - case_decide as Hp; [by destruct Hin |].
    rewrite lookup_insert_eq. split; [eauto |]. by rewrite alter_insert_eq.
Qed.

Lemma on_join_state σ tp ws d :
  state (on_join σ tp ws d)
  = {| rooms := join_rooms (rooms σ) (data.roomId d) ws;
       conns := <[ws := join_vars d]> (conns σ) |}.
Proof.
  destruct (decide (inherited (rooms σ) (data.roomId d))) as [Hin | Hin].
  - rewrite on_join_inherited by done. by rewrite join_rooms_inherited.
  - unfold on_join. cbn [roomId userId].
    destruct (create_then_add (rooms σ) (data.roomId d) ws Hin) as [[s Hs] Halter].
    cbn zeta in Hs, Halter. rewrite Hs, Halter.
    unfold join_rooms. rewrite decide_False by done.
    destruct (broadcastToRoom _ _ _ _ _) as [out [|]]; done.
Qed.

Lemma on_code_update_state σ tp ws d : state (on_code_update σ tp ws d) = σ.
Proof. unfold on_code_update. by destruct (broadcastToRoom _ _ _ _ _). Qed.

Lemma on_chat_message_state σ tp ws d : state (on_chat_message σ tp ws d) = σ.
Proof. unfold on_chat_message. by destruct (broadcastToRoom _ _ _ _ _). Qed.

Lemma on_message_state σ tp ws m :
  state (on_message σ tp ws m)
  = match m with
    | Decoded d =>
        if decide (data.type d = "join")
        then {| rooms := join_rooms (rooms σ) (data.roomId d) ws;
                conns := <[ws := join_vars d]> (conns σ) |}
        else σ
    | Undecodable => σ
    end.
Proof.
  destruct m as [| d]; [done |]. unfold on_message.
  repeat case_decide;
    auto using on_join_state, on_code_update_state, on_chat_message_state.
Qed.


Lemma on_close_conns σ tp ws : conns (state (on_close σ tp ws)) = conns σ.
Proof.
  unfold on_close. case_decide; [| done].
  destruct (rooms_get _ _); try done.
  destruct (broadcastToRoom _ _ _ _ _) as [out [|]]; done.
Qed.

Lemma on_close_rooms σ tp ws :
  rooms (state (on_close σ tp ws))
  = if decide (roomId (vars_of σ ws) ≠ "")
    then leave_rooms (rooms σ) (roomId (vars_of σ ws)) ws
    else rooms σ.
Proof.
  unfold on_close, leave_rooms. set (r := roomId (vars_of σ ws)).
  case_decide as Hguard.
  - destruct Hguard as [Hr Hget].
    rewrite (decide_True (P := r ≠ "")) by done.
    destruct (rooms_get (rooms σ) r) as [s | |] eqn:Hs.
    + apply rooms_get_IsSet in Hs. rewrite Hs.
      unfold broadcastToRoom, Set_size.
      rewrite (alter_Some _ _ _ _ Hs).
      rewrite (rooms_get_Some _ _ _ (lookup_insert_eq _ _ _)), lookup_insert_eq.
      destruct (forEach _ _ _ _) as [out threw] eqn:Hfe. destruct threw; simpl.
      * rewrite decide_False; [done |].
        eapply forEach_threw_nonempty. by rewrite Hfe.
      * destruct (Set_delete ws s) eqn:Hdel; simpl.
        -- by rewrite delete_insert_eq.
        -- done.
    + apply rooms_get_Inherited in Hs as [-> _]. done.
    + done.
  - case_decide as Hr; [| done].
    destruct (rooms σ !! r) eqn:Hs; [| done].
    exfalso. apply Hguard. split; [done |].
    by rewrite (rooms_get_Some _ _ _ Hs).
Qed.

Lemma leave_rooms_lookup rms r ws k :
  leave_rooms rms r ws !! k
  = if decide (r = k)
    then s ← rms !! r;
         if decide (Set_delete ws s = []) then None else Some (Set_delete ws s)
    else rms !! k.
Proof.
  unfold leave_rooms. destruct (rms !! r) as [s |] eqn:Hr; simpl.
  - destruct (decide (Set_delete ws s = [])).
    + apply lookup_delete.
    + apply lookup_insert.
  - case_decide; by subst.
Qed.

(** ** Invariants of the registry *)

Section Invariants.

Implicit Types (rms : gmap string (list conn)) (r : string) (ws : conn).

Lemma no_empty_room_join rms r ws :
  no_empty_room rms → no_empty_room (join_rooms rms r ws).
Proof.
  intros Hinv. destruct (decide (inherited rms r)) as [Hin | Hin].
  { by rewrite join_rooms_inherited. }
  intros k s. rewrite join_rooms_lookup by done. case_decide.
  - intros [= <-]. apply Set_add_nonempty.
  - apply Hinv.
Qed.

Lemma no_empty_room_leave rms r ws :
  no_empty_room rms → no_empty_room (leave_rooms rms r ws).
Proof.
  intros Hinv k s. rewrite leave_rooms_lookup. case_decide.
  - destruct (rms !! r) as [s0 |]; simpl; [| done].
    case_decide; [done |]. by intros [= <-].
  - apply Hinv.
Qed.

Lemma rooms_NoDup_join rms r ws :
  rooms_NoDup rms → rooms_NoDup (join_rooms rms r ws).
Proof.
  intros Hinv. destruct (decide (inherited rms r)) as [Hin | Hin].
  { by rewrite join_rooms_inherited. }
  intros k s. rewrite join_rooms_lookup by done. case_decide.
  - intros [= <-]. apply NoDup_Set_add.
    destruct (rms !! r) as [s0 |] eqn:Hr; simpl; [by eapply Hinv | constructor].
  - apply Hinv.
Qed.

Lemma proper_keys_join rms r ws :
  proper_keys rms → proper_keys (join_rooms rms r ws).
Proof.
  intros Hinv. destruct (decide (inherited rms r)) as [Hin | Hin].
  { by rewrite join_rooms_inherited. }
  intros k s. rewrite join_rooms_lookup by done. case_decide as Hk.
  - subst k. intros _ Hp. destruct (rms !! r) as [s0 |] eqn:Hr.
    + by apply (Hinv r s0).
    + by apply Hin.
  - apply Hinv.
Qed.

Lemma proper_keys_leave rms r ws :
  proper_keys rms → proper_keys (leave_rooms rms r ws).
Proof.
  intros Hinv k s. rewrite leave_rooms_lookup. case_decide as Hk.
  - subst k. destruct (rms !! r) as [s0 |] eqn:Hr; simpl; [| done].
    case_decide; [done |]. intros _. by apply (Hinv r s0).
  - apply Hinv.
Qed.

Lemma rooms_NoDup_leave rms r ws :
  rooms_NoDup rms → rooms_NoDup (leave_rooms rms r ws).
Proof.
  intros Hinv k s. rewrite leave_rooms_lookup. case_decide.
  - destruct (rms !! r) as [s0 |] eqn:Hr; simpl; [| done].
    case_decide; [done |]. intros [= <-]. apply NoDup_Set_delete. by eapply Hinv.
  - apply Hinv.
Qed.

Lemma step_rooms σ tp e :
  rooms (state (step σ tp e)) = rooms σ
  ∨ (∃ r ws, rooms (state (step σ tp e)) = join_rooms (rooms σ) r ws)
  ∨ (∃ r ws, rooms (state (step σ tp e)) = leave_rooms (rooms σ) r ws).
Proof.
  destruct e as [ws m | ws]; simpl.
  - rewrite on_message_state. destruct m as [| d]; [by left |].
    case_decide; [right; left; eauto | by left].
  - rewrite on_close_rooms. case_decide; [right; right; eauto | by left].
Qed.

Lemma no_empty_room_step σ tp e :
  no_empty_room (rooms σ) → no_empty_room (rooms (state (step σ tp e))).
Proof.
  intros Hinv.
  destruct (step_rooms σ tp e) as [-> | [(r & ws & ->) | (r & ws & ->)]];
    auto using no_empty_room_join, no_empty_room_leave.
Qed.

Lemma rooms_NoDup_step σ tp e :
  rooms_NoDup (rooms σ) → rooms_NoDup (rooms (state (step σ tp e))).
Proof.
  intros Hinv.
  destruct (step_rooms σ tp e) as [-> | [(r & ws & ->) | (r & ws & ->)]];
    auto using rooms_NoDup_join, rooms_NoDup_leave.
Qed.

Lemma reachable_no_empty_room σ : reachable σ → no_empty_room (rooms σ).
Proof.
  induction 1 as [| σ tp e _ IH]; [| by apply no_empty_room_step].
  apply map_Forall_empty.
Qed.

Lemma reachable_rooms_NoDup σ : reachable σ → rooms_NoDup (rooms σ).
Proof.
  induction 1 as [| σ tp e _ IH]; [| by apply rooms_NoDup_step].
  apply map_Forall_empty.
Qed.

Lemma proper_keys_step σ tp e :
  proper_keys (rooms σ) → proper_keys (rooms (state (step σ tp e))).
Proof.
  intros Hinv.
  destruct (step_rooms σ tp e) as [-> | [(r & ws & ->) | (r & ws & ->)]];
    auto using proper_keys_join, proper_keys_leave.
Qed.

Lemma reachable_proper_keys σ : reachable σ → proper_keys (rooms σ).
Proof.
  induction 1 as [| σ tp e _ IH]; [| by apply proper_keys_step].
  apply map_Forall_empty.
Qed.

Lemma reachable_run σ evs : reachable σ → reachable (run σ evs).
Proof.
  revert σ. induction evs as [| [tp e] evs IH]; intros σ Hσ; simpl; [done |].
  apply IH. by constructor.
Qed.

End Invariants.

(** ** What the handlers send when no [send] throws *)

Section Sends.

Context (tp : Transport) (Hok : no_throw tp).

Lemma broadcast_ok rms r message ex s :
  (∀ c, Js.truthy ex && Js.strict_eq (Js.Ref c) ex = false) →
  rms !! r = Some s →
  broadcastToRoom rms tp r message ex = (to_all message (open_members tp s), false).
Proof.
  intros Hex Hr. unfold broadcastToRoom. rewrite (rooms_get_Some _ _ _ Hr).
  apply forEach_open_only; [done |]. intros; apply Hok.
Qed.

Lemma on_join_ok σ ws d :
  ¬ inherited (rooms σ) (data.roomId d) →
  let s' := Set_add ws (default [] (rooms σ !! data.roomId d)) in
  on_join σ tp ws d
  = {| state := {| rooms := join_rooms (rooms σ) (data.roomId d) ws;
                   conns := <[ws := join_vars d]> (conns σ) |};
       sent := to_all (user_joined (data.userId d) (data.username d) (now tp 0))
                 (open_members tp s')
               ++ [(ws, room_info (data.roomId d) (length s') (now tp 1))];
       outcome := Completed |}.
Proof.
  intros Hin s'. unfold on_join. cbn [roomId userId].
  destruct (create_then_add (rooms σ) (data.roomId d) ws Hin) as [[s Hs] Halter].
  cbn zeta in Hs, Halter. rewrite Hs, Halter.
  erewrite broadcast_ok; [| by intros; rewrite andb_false_r
                           | apply lookup_insert_eq].
  unfold Set_size, join_rooms. rewrite lookup_insert_eq, decide_False by done.
  by rewrite Hok.
Qed.

Lemma on_code_update_ok σ ws d s :
  rooms σ !! roomId (vars_of σ ws) = Some s →
  on_code_update σ tp ws d
  = {| state := σ;
       sent := to_all (code_update (data.code d) (data.language d)
                         (data.userId d) (data.username d) (now tp 0))
                 (open_members tp s);
       outcome := Completed |}.
Proof.
  intros Hr. unfold on_code_update.
  erewrite broadcast_ok; [done | by intros; rewrite andb_false_r | done].
Qed.

Lemma on_chat_message_ok σ ws d s :
  rooms σ !! roomId (vars_of σ ws) = Some s →
  on_chat_message σ tp ws d
  = {| state := σ;
       sent := to_all (chat_message (data.message d) (data.userId d)
                         (data.username d) (now tp 0))
                 (open_members tp s);
       outcome := Completed |}.
Proof.
  intros Hr. unfold on_chat_message. by erewrite broadcast_ok.
Qed.

End Sends.



(** ** Membership *)

Section Membership.

Implicit Types (rms : gmap string (list conn)) (r k : string) (c ws : conn).

Lemma member_join rms r ws k c :
  member (join_rooms rms r ws) k c
  ↔ (k = r ∧ c = ws ∧ ¬ inherited rms r) ∨ member rms k c.
Proof.
  destruct (decide (inherited rms r)) as [Hinh | Hinh].
  { rewrite join_rooms_inherited by done. split; [auto |].
    by intros [(_ & _ & ?) | ?]. }
  unfold member. setoid_rewrite (join_rooms_lookup _ _ _ _ Hinh). split.
  - intros (s & Hs & Hin). case_decide as Hk.
    + subst k. injection Hs as <-.
      apply elem_of_Set_add in Hin as [-> | Hin]; [by left |].
      right. destruct (rms !! r) as [s0 |]; simpl in *; [eauto |].
      by apply not_elem_of_nil in Hin.
    + right. eauto.
  - intros [(-> & -> & _) | (s & Hs & Hin)].
    + rewrite decide_True by done. eexists. split; [done |].
      apply elem_of_Set_add. by left.
    + case_decide as Hk; [| eauto]. subst k. rewrite Hs. simpl.
      eexists. split; [done |]. apply elem_of_Set_add. by right.
Qed.

Lemma member_leave rms r ws k c :
  member (leave_rooms rms r ws) k c ↔ member rms k c ∧ ¬ (k = r ∧ c = ws).
Proof.
  unfold member. setoid_rewrite leave_rooms_lookup. split.
  - intros (s & Hs & Hin). case_decide as Hk.
    + subst k. destruct (rms !! r) as [s0 |]; simpl in *; [| done].
      case_decide; [done |]. injection Hs as <-.
      apply elem_of_Set_delete in Hin as [Hne Hin].
      split; [eauto | by intros [_ ?]].
    + split; [eauto | by intros [? _]].
  - intros [(s & Hs & Hin) Hne]. case_decide as Hk; [| eauto].
    subst k. rewrite Hs. simpl.
    assert (c ∈ Set_delete ws s) as Hin' by (apply elem_of_Set_delete; naive_solver).
    case_decide as Hempty.
    + rewrite Hempty in Hin'. by apply not_elem_of_nil in Hin'.
    + eauto.
Qed.

End Membership.

(** ** Traces of events *)

Section Traces.

Implicit Types (σ : State) (evs : list (Transport * Event)) (e : Event).

Lemma run_snoc σ evs tp e :
  run σ (evs ++ [(tp, e)]) = state (step (run σ evs) tp e).
Proof.
  revert σ. induction evs as [| [tp' e'] evs IH]; intros σ; simpl; [done |].
  apply IH.
Qed.

Lemma guarded_snoc P σ evs tp e :
  guarded P σ (evs ++ [(tp, e)]) ↔ guarded P σ evs ∧ P (run σ evs) e.
Proof.
  revert σ. induction evs as [| [tp' e'] evs IH]; intros σ; simpl.
  - tauto.
  - rewrite IH. tauto.
Qed.

Lemma joined_not_left_snoc evs tp e r c :
  joined_not_left (evs ++ [(tp, e)]) r c = track r c (joined_not_left evs r c) e.
Proof. unfold joined_not_left. by rewrite foldl_app. Qed.

Lemma trace_conns_snoc evs tp e c :
  c ∈ trace_conns (evs ++ [(tp, e)]) ↔ c = event_conn e ∨ c ∈ trace_conns evs.
Proof.
  unfold trace_conns. rewrite !elem_of_remove_dups, fmap_app, elem_of_app.
  simpl. rewrite list_elem_of_singleton. tauto.
Qed.

Lemma track_true r c acc e :
  track r c acc e = true → acc = true ∨ c = event_conn e.
Proof.
  destruct e as [ws [| d] | ws]; simpl; auto.
  - case_decide; [| auto]. case_decide as Hc; [| auto].
    destruct Hc as [-> _]. auto.
  - case_decide; [done | auto].
Qed.

Lemma joined_not_left_in_trace evs r c :
  joined_not_left evs r c = true → c ∈ trace_conns evs.
Proof.
  induction evs as [| [tp e] evs IH] using rev_ind; [done |].
  rewrite joined_not_left_snoc, trace_conns_snoc.
  intros [? | ?]%track_true; auto.
Qed.

(** The state after one event, by kind of event. *)
Lemma step_join σ tp e ws d :
  join_of e = Some (ws, d) →
  state (step σ tp e)
  = {| rooms := join_rooms (rooms σ) (data.roomId d) ws;
       conns := <[ws := join_vars d]> (conns σ) |}.
Proof.
  destruct e as [ws' [| d'] | ws']; cbn [join_of step]; try done.
  case_decide as Ht; [| done]. intros [= -> ->].
  rewrite on_message_state. by rewrite decide_True.
Qed.

Lemma step_other σ tp e :
  join_of e = None → (∀ ws, e ≠ Close ws) → state (step σ tp e) = σ.
Proof.
  destruct e as [ws' [| d'] | ws']; cbn [join_of step]; intros Hj Hc.
  - done.
  - rewrite on_message_state. case_decide; [done | done].
  - by destruct (Hc ws').
Qed.

Lemma vars_of_join σ ws d c :
  vars_of {| rooms := join_rooms (rooms σ) (data.roomId d) ws;
             conns := <[ws := join_vars d]> (conns σ) |} c
  = if decide (ws = c) then join_vars d else vars_of σ c.
Proof.
  unfold vars_of. simpl. rewrite lookup_insert. by case_decide.
Qed.

Lemma vars_of_close σ tp ws c :
  vars_of (state (on_close σ tp ws)) c = vars_of σ c.
Proof. unfold vars_of. by rewrite on_close_conns. Qed.

Lemma member_close σ tp ws k c :
  member (rooms (state (on_close σ tp ws))) k c
  ↔ member (rooms σ) k c
    ∧ ¬ (roomId (vars_of σ ws) ≠ "" ∧ k = roomId (vars_of σ ws) ∧ c = ws).
Proof.
  rewrite on_close_rooms. case_decide as Hr.
  - rewrite member_leave. tauto.
  - tauto.
Qed.

End Traces.

(** ** The registry tracks who joined and has not left *)

Lemma unregistered_not_member σ ws r : unregistered σ ws → ¬ member (rooms σ) r ws.
Proof. intros Hun (s & Hs & Hin). by apply (Hun r s). Qed.

Lemma tracks_step σ evs tp e :
  tracks σ evs → join_allowed σ e →
  tracks (state (step σ tp e)) (evs ++ [(tp, e)]).
Proof.
  intros (Hmem & Hvars & Hkeys) Hpre.
  split_and!; [| | by apply proper_keys_step].
  - intros r c Hp. rewrite joined_not_left_snoc.
    destruct (join_of e) as [[ws d] |] eqn:Hjoin.
    + (* a join *)
      rewrite (step_join _ _ _ _ _ Hjoin). cbn [rooms].
      assert (Htrack : ∀ acc,
        track r c acc e = if decide (ws = c ∧ data.roomId d = r) then true else acc).
      { intros acc. destruct e as [? [|?] | ?]; try done.
        unfold track. by rewrite Hjoin. }
      rewrite Htrack, member_join, <- (Hmem r c Hp).
      case_decide as Hc.
      * destruct Hc as [-> <-]. split; [| done]. intros _. left.
        split_and!; [done | done |]. by intros [_ ?].
      * split; [auto |]. intros [(-> & -> & _) | ?]; [by destruct Hc | done].
    + destruct e as [ws m | ws].
      * (* a message that is not a join *)
        rewrite step_other by done. rewrite <- (Hmem r c Hp).
        unfold track. by rewrite Hjoin.
      * (* a close *)
        cbn [step]. rewrite member_close, <- (Hmem r c Hp). simpl.
        case_decide as Hc.
        -- subst c. split; [done |]. intros [Hin Hne]. exfalso. apply Hne.
           apply (Hmem r ws Hp), Hvars in Hin as [<- ?]. done.
        -- split; [| by intros [? _]].
           intros ?. split; [done |]. by intros (_ & _ & ->).
  - intros r c. destruct (join_of e) as [[ws d] |] eqn:Hjoin.
    + unfold join_allowed in Hpre. rewrite Hjoin in Hpre.
      destruct Hpre as [Hr Hun].
      rewrite (step_join _ _ _ _ _ Hjoin). cbn [rooms].
      rewrite member_join, vars_of_join.
      intros [(-> & -> & _) | Hin].
      * by rewrite decide_True.
      * case_decide as Hc; [| by apply Hvars].
        subst c. by apply unregistered_not_member in Hin.
    + destruct e as [ws m | ws].
      * rewrite step_other by done. apply Hvars.
      * cbn [step]. rewrite member_close, vars_of_close.
        intros [Hin _]. by apply Hvars.
Qed.

Lemma tracks_run evs :
  guarded join_allowed init evs → tracks (run init evs) evs.
Proof.
  induction evs as [| [tp e] evs IH] using rev_ind; intros Hpre.
  - split_and!.
    + intros r c _. split; [done |].
      intros (s & Hs & _). by destruct (lookup_empty_Some r s).
    + intros r c (s & Hs & _). by destruct (lookup_empty_Some r s).
    + apply map_Forall_empty.
  - apply guarded_snoc in Hpre as [Hpre He].
    rewrite run_snoc. by apply tracks_step; [apply IH |].
Qed.

(** ** At most one room per connection *)

Lemma at_most_one_room_step σ tp e :
  at_most_one_room (rooms σ) → join_same_room σ e →
  at_most_one_room (rooms (state (step σ tp e))).
Proof.
  intros Hinv Hpre. destruct (join_of e) as [[ws d] |] eqn:Hjoin.
  - unfold join_same_room in Hpre. rewrite Hjoin in Hpre.
    rewrite (step_join _ _ _ _ _ Hjoin). cbn [rooms].
    assert (Hws : ∀ r, member (rooms σ) r ws → r = data.roomId d).
    { intros r (s & Hs & Hin). by apply (Hpre r s). }
    intros c r1 r2. rewrite !member_join.
    intros [(E1 & Ec1 & _) | H1] [(E2 & Ec2 & _) | H2]; subst.
    + done.
    + symmetry. by apply Hws.
    + by apply Hws.
    + by eapply Hinv.
  - destruct e as [ws m | ws].
    + by rewrite step_other.
    + cbn [step]. intros c r1 r2. rewrite !member_close.
      intros [H1 _] [H2 _]. eauto.
Qed.

Lemma at_most_one_room_run σ evs :
  at_most_one_room (rooms σ) → guarded join_same_room σ evs →
  at_most_one_room (rooms (run σ evs)).
Proof.
  revert σ. induction evs as [| [tp e] evs IH]; intros σ Hinv Hpre; [done |].
  destruct Hpre as [He Hpre]. simpl. apply IH; [| done].
  by apply at_most_one_room_step.
Qed.

(** ** The connection variables after a trace *)

Lemma vars_of_run evs ws : vars_of (run init evs) ws = last_join evs ws.
Proof.
  induction evs as [| [tp e] evs IH] using rev_ind; [done |].
  rewrite run_snoc. unfold last_join. rewrite foldl_app. simpl.
  fold (last_join evs ws). rewrite <- IH.
  destruct (join_of e) as [[c d] |] eqn:Hjoin.
  - rewrite (step_join _ _ _ _ _ Hjoin). apply vars_of_join.
  - destruct e as [c m | c].
    + by rewrite step_other.
    + apply vars_of_close.
Qed.

(** ** Further facts about the handlers and their sends *)

Lemma elem_of_to_all message l c : c ∈ l → (c, message) ∈ to_all message l.
Proof. intros Hin. unfold to_all. by apply (list_elem_of_fmap_2 (λ c, (c, message))). Qed.

Lemma elem_of_open_members tp s c : c ∈ open_members tp s ↔ is_open tp c ∧ c ∈ s.
Proof. unfold open_members. by rewrite list_elem_of_filter. Qed.

Lemma room_infos_of_join message l ws info :
  is_room_info (ws, message) = false →
  is_room_info (ws, info) = true →
  filter (λ p, is_room_info p) (to_all message l ++ [(ws, info)]) = [(ws, info)].
Proof.
  intros Hmsg Hinfo. rewrite filter_app.
  rewrite filter_cons_True by (by apply Is_true_true_2). rewrite filter_nil.
  replace (filter (λ p, is_room_info p) (to_all message l)) with (@nil (conn * ServerMsg)); [done |].
  induction l as [| c l IH]; [done |]. simpl.
  rewrite filter_cons_False; [done |]. by apply Is_true_false_2.
Qed.

Lemma on_message_not_uncaught σ tp ws m : outcome (on_message σ tp ws m) ≠ Uncaught.
Proof.
  destruct m as [| d]; [done |]. unfold on_message.
  repeat case_decide; try done.
  - unfold on_join. destruct (rooms_get _ _); try done.
    destruct (broadcastToRoom _ _ _ _ _) as [out [|]]; [done |].
    simpl. by destruct (send_throws tp ws).
  - unfold on_code_update. by destruct (broadcastToRoom _ _ _ _ _) as [out [|]].
  - unfold on_chat_message. by destruct (broadcastToRoom _ _ _ _ _) as [out [|]].
Qed.

Lemma join_rooms_member rms r ws s :
  rms !! r = Some s → ws ∈ s → join_rooms rms r ws = rms.
Proof.
  intros Hs Hin. unfold join_rooms.
  rewrite decide_False by (intros [? _]; congruence). rewrite Hs. simpl.
  rewrite Set_add_member by done. by apply insert_id.
Qed.

Lemma no_room_named_empty evs :
  guarded join_allowed init evs → rooms (run init evs) !! "" = None.
Proof.
  intros Hpre. destruct (rooms (run init evs) !! "") as [s |] eqn:Hs; [| done].
  exfalso. destruct (tracks_run evs Hpre) as (_ & Hvars & _).
  assert (Hne : s ≠ []).
  { eapply (reachable_no_empty_room (run init evs)); [| done].
    apply reachable_run. constructor. }
  destruct s as [| c s]; [done |].
  destruct (Hvars "" c) as [_ ?]; [| done].
  exists (c :: s). split; [done | by left].
Qed.


Lemma to_all_none message l (m : conn) :
  m ∉ l → filter (λ p : conn * ServerMsg, p.1 = m) (to_all message l) = [].
Proof.
  induction l as [| c l IH]; [done |].
  intros [Hne Hnin]%not_elem_of_cons. simpl.
  rewrite filter_cons_False by (simpl; congruence). by apply IH.
Qed.

Lemma to_all_exactly_one message l (m : conn) :
  NoDup l → m ∈ l →
  filter (λ p : conn * ServerMsg, p.1 = m) (to_all message l) = [(m, message)].
Proof.
  induction 1 as [| c l Hnin Hnd IH]; [by intros ?%not_elem_of_nil |].
  intros [-> | Hin]%elem_of_cons; simpl.
  - rewrite filter_cons_True by done. by rewrite to_all_none.
  - rewrite filter_cons_False; [by apply IH |].
    simpl. intros ->. done.
Qed.

Lemma no_exclusion ex c :
  (∀ c', ex ≠ Js.Ref c') → Js.truthy ex && Js.strict_eq (Js.Ref c) ex = false.
Proof.
  intros Hex. destruct ex as [| n | c']; [done | by rewrite andb_false_r |].
  by destruct (Hex c').
Qed.

Lemma forEach_until_throw tp message ex s1 c s2 :
  (∀ c', ex ≠ Js.Ref c') →
  is_open tp c → send_throws tp c = true →
  (∀ c', c' ∈ s1 → is_open tp c' → send_throws tp c' = false) →
  forEach tp message ex (s1 ++ c :: s2)
  = (to_all message (open_members tp s1) ++ [(c, message)], true).
Proof.
  intros Hex Hopen Hthrow. induction s1 as [| c1 s1 IH]; intros Hok.
  - cbn [app forEach]. rewrite no_exclusion by done.
    by rewrite (Is_true_true_1 _ Hopen), Hthrow.
  - cbn [app forEach]. rewrite no_exclusion by done.
    rewrite IH by (intros; apply Hok; [by right | done]).
    unfold open_members. destruct (is_open tp c1) eqn:Hopen1.
    + rewrite Hok; [| by left | by apply Is_true_true_2].
      by rewrite filter_cons_True by (by apply Is_true_true_2).
    + by rewrite filter_cons_False by (by apply Is_true_false_2).
Qed.

Lemma broadcast_absent rms tp r message ex :
  rms !! r = None → (broadcastToRoom rms tp r message ex).1 = [].
Proof.
  intros Hr. unfold broadcastToRoom, rooms_get. rewrite Hr. by case_decide.
Qed.

Lemma broadcast_recipients rms tp r message ex p :
  p ∈ (broadcastToRoom rms tp r message ex).1 → member rms r p.1.
Proof.
  unfold broadcastToRoom, member.
  destruct (rooms_get rms r) as [s | |] eqn:Hget.
  - apply rooms_get_IsSet in Hget. intros [Hin _]%forEach_recipients. eauto.
  - by intros ?%not_elem_of_nil.
  - by intros ?%not_elem_of_nil.
Qed.

Lemma fst_to_all message (l : list conn) : (to_all message l).*1 = l.
Proof.
  unfold to_all. rewrite <- list_fmap_compose. apply list_fmap_id.
Qed.

(** * Properties of the relay *)

(** ** C1: exclusion of the originator *)

(** C1 (fails on the code).  [broadcastToRoom] is given the numeric [userId]
    as [excludeUserId] and compares it with the connection object, so the
    exclusion never applies: a broadcast that names an originator is the
    broadcast with no exclusion.  With A, B and C in room R, a [code_update]
    from A is sent to A as well; and a connection that joins receives its own
    [user_joined]. *)
Theorem code_update_echoed_to_sender tp message n s :
  forEach tp message (Js.Num n) s = forEach tp message Js.Null s
  ∧ sent (on_message (run init three_in_R) all_open 0
            (code_msg "R" 10 "A" "x" "js"))
    = to_all (code_update (Some "x") (Some "js") 10 (Some "A") "t") [0; 1; 2]
  ∧ sent (on_message init all_open 0 (join_msg "R" 10 "A"))
    = [(0, user_joined 10 (Some "A") "t"); (0, room_info "R" 1 "t")].
Proof. split; [apply forEach_Num | split; vm_compute; reflexivity]. Qed.

(** ** C2: chat messages go to everybody *)

(** C2.  A [chat_message] event from a connection whose room has member set
    [s] is sent, with no exclusion, to exactly the open members of [s] in
    insertion order; every open member gets it, the sender included. *)
Theorem chat_message_reaches_all σ tp ws d s :
  data.type d = "chat_message" →
  no_throw tp →
  rooms σ !! roomId (vars_of σ ws) = Some s →
  ws ∈ s →
  let res := on_message σ tp ws (Decoded d) in
  let msg := chat_message (data.message d) (data.userId d) (data.username d)
               (now tp 0) in
  sent res = to_all msg (open_members tp s)
  ∧ (∀ c, c ∈ s → is_open tp c → (c, msg) ∈ sent res)
  ∧ (is_open tp ws → (ws, msg) ∈ sent res)
  ∧ state res = σ
  ∧ outcome res = Completed.
Proof.
  intros Ht Hok Hs Hws res msg.
  assert (Hres : res = {| state := σ; sent := to_all msg (open_members tp s);
                          outcome := Completed |}).
  { unfold res, on_message. rewrite Ht. simpl. by apply on_chat_message_ok. }
  rewrite Hres. simpl.
  assert (Hall : ∀ c, c ∈ s → is_open tp c → (c, msg) ∈ to_all msg (open_members tp s)).
  { intros c Hc Hopen. by apply elem_of_to_all, elem_of_open_members. }
  split_and!; auto.
Qed.

Lemma chat_message_reaches_all_witness :
  let σ := run init three_in_R in
  let msg := chat_message (Some "hi") 10 (Some "A") "t" in
  rooms σ !! roomId (vars_of σ 0) = Some [0; 1; 2]
  ∧ sent (on_message σ all_open 0 (chat_msg "R" 10 "A" "hi"))
    = [(0, msg); (1, msg); (2, msg)].
Proof.
  split; [vm_compute; reflexivity |].
  apply (chat_message_reaches_all (run init three_in_R) all_open 0
           (data.mk "chat_message" "R" 10 (Some "A") None None (Some "hi"))
           [0; 1; 2]).
  - reflexivity.
  - intros c. reflexivity.
  - vm_compute; reflexivity.
  - apply elem_of_cons. by left.
Defined.

(** ** C3: no empty room stays in the registry *)

(** C3.  No handler leaves a room with an empty member set in the registry:
    the invariant holds in every reachable state and every event preserves
    it, whatever the transport does.  In a reachable state, when the only
    member of a room with a non-empty identifier closes, the entry is
    deleted by the same handler; a later join to that identifier creates the
    room again with the joiner as its only member, and the joiner's
    [room_info] carries [userCount = 1]. *)
Theorem empty_rooms_do_not_persist σ tp e :
  (reachable σ → no_empty_room (rooms σ))
  ∧ (no_empty_room (rooms σ) → no_empty_room (rooms (state (step σ tp e))))
  ∧ (reachable σ →
     ∀ ws, roomId (vars_of σ ws) ≠ "" →
       rooms σ !! roomId (vars_of σ ws) = Some [ws] →
       let r := roomId (vars_of σ ws) in
       let σ1 := state (on_close σ tp ws) in
       rooms σ1 !! r = None
       ∧ ∀ tp' ws' d,
           data.type d = "join" → data.roomId d = r → no_throw tp' →
           let res := on_message σ1 tp' ws' (Decoded d) in
           rooms (state res) !! r = Some [ws']
           ∧ filter (λ p, is_room_info p) (sent res)
             = [(ws', room_info r 1 (now tp' 1))]).
Proof.
  split_and!.
  - apply reachable_no_empty_room.
  - apply no_empty_room_step.
  - intros Hreach ws Hr Hs r σ1.
    assert (Hgone : rooms σ1 !! r = None).
    { unfold σ1. rewrite on_close_rooms, decide_True by done.
      rewrite leave_rooms_lookup, decide_True by done. rewrite Hs. simpl.
      unfold Set_delete. rewrite filter_cons_False by (by intros ?).
      done. }
    assert (Hown : ∀ rms, ¬ inherited rms r).
    { intros rms [_ Hp]. by apply (reachable_proper_keys σ Hreach r [ws]). }
    split; [done |]. intros tp' ws' d Ht Hd Hok res.
    unfold res, on_message. rewrite decide_True by done.
    rewrite on_join_ok by (by rewrite ?Hd). cbn [state sent rooms].
    rewrite Hd, Hgone. simpl. split.
    + by rewrite join_rooms_lookup, decide_True, Hgone.
    + by apply room_infos_of_join.
Qed.

Lemma empty_rooms_do_not_persist_witness :
  let σ := state (on_message init all_open 0 (join_msg "R" 10 "A")) in
  let σ1 := state (on_close σ all_open 0) in
  rooms σ !! "R" = Some [0]
  ∧ rooms σ1 !! "R" = None
  ∧ filter (λ p, is_room_info p)
      (sent (on_message σ1 all_open 1 (join_msg "R" 11 "B")))
    = [(1, room_info "R" 1 "t")].
Proof.
  intros σ σ1.
  destruct (empty_rooms_do_not_persist σ all_open (Close 0)) as (_ & _ & Hlast).
  destruct (Hlast (reach_step init all_open (Message 0 (join_msg "R" 10 "A"))
                     reach_init) 0) as [Hgone Hfresh].
  - vm_compute. discriminate.
  - vm_compute. reflexivity.
  - split; [vm_compute; reflexivity |]. split; [exact Hgone |].
    apply (Hfresh all_open 1 (data.mk "join" "R" 11 (Some "B") None None None)).
    + reflexivity.
    + vm_compute. reflexivity.
    + intros c. reflexivity.
Defined.

(** ** C4: the member count is the number of connections present *)

(** C4.  After any trace of events in which every join names a non-empty
    room and arrives on a connection that is registered in no room, the size
    of each room of the registry is the number of connections that joined
    that room and have not left since. *)
Theorem member_count_is_present_count evs r s :
  guarded join_allowed init evs →
  rooms (run init evs) !! r = Some s →
  length s = present_count evs r.
Proof.
  intros Hpre Hs. unfold present_count. apply Permutation_length.
  destruct (tracks_run evs Hpre) as (Hmem' & _ & Hkeys).
  assert (Hmem : ∀ c, joined_not_left evs r c = true
                      ↔ member (rooms (run init evs)) r c).
  { intros c. apply Hmem'. by apply (Hkeys r s). }
  apply NoDup_Permutation.
  - eapply (reachable_rooms_NoDup (run init evs)); [| done].
    apply reachable_run. constructor.
  - apply NoDup_filter, NoDup_remove_dups.
  - intros c. rewrite list_elem_of_filter. split.
    + intros Hin.
      assert (joined_not_left evs r c = true) as Hj by (apply Hmem; by exists s).
      split; [by apply Is_true_true_2 | by eapply joined_not_left_in_trace].
    + intros [Hj _]. apply Is_true_true_1, Hmem in Hj as (s' & Hs' & Hin).
      congruence.
Qed.

Lemma member_count_is_present_count_witness :
  guarded join_allowed init come_and_go
  ∧ rooms (run init come_and_go) !! "R" = Some [1]
  ∧ present_count come_and_go "R" = 1.
Proof.
  assert (Hpre : guarded join_allowed init come_and_go)
    by (apply (bool_decide_unpack _); vm_compute; exact I).
  assert (Hs : rooms (run init come_and_go) !! "R" = Some [1])
    by (vm_compute; reflexivity).
  split; [exact Hpre |]. split; [exact Hs |].
  symmetry. exact (member_count_is_present_count come_and_go "R" [1] Hpre Hs).
Defined.

(** ** C5: one room per connection *)

(** C5, as stated, fails: after a second join that names another room the
    connection is a member of both rooms. *)
Lemma double_join_two_rooms :
  reachable (run init double_join)
  ∧ member (rooms (run init double_join)) "R1" 0
  ∧ member (rooms (run init double_join)) "R2" 0
  ∧ ¬ at_most_one_room (rooms (run init double_join)).
Proof.
  assert (H1 : member (rooms (run init double_join)) "R1" 0).
  { exists [0]. split; [vm_compute; reflexivity | by left]. }
  assert (H2 : member (rooms (run init double_join)) "R2" 0).
  { exists [0]. split; [vm_compute; reflexivity | by left]. }
  split_and!; [apply reachable_run; constructor | done | done |].
  intros Hone. by specialize (Hone 0 "R1" "R2" H1 H2).
Qed.

(** C5, amended.  As long as every join arrives on a connection that is
    registered in no room other than the one it names, every connection is a
    member of at most one room.  A repeated join to the room the connection
    is already in leaves the registry as it is, overwrites the connection's
    [roomId] and [userId], and raises nothing that leaves the handler. *)
Theorem one_room_per_connection evs :
  guarded join_same_room init evs →
  let σ := run init evs in
  at_most_one_room (rooms σ)
  ∧ ∀ tp ws d s,
      data.type d = "join" → rooms σ !! data.roomId d = Some s → ws ∈ s →
      let res := on_message σ tp ws (Decoded d) in
      rooms (state res) = rooms σ
      ∧ vars_of (state res) ws = join_vars d
      ∧ outcome res ≠ Uncaught.
Proof.
  intros Hpre σ. split.
  - apply at_most_one_room_run; [| done].
    intros c r1 r2 (s & Hs & _). by destruct (lookup_empty_Some r1 s).
  - intros tp ws d s Ht Hs Hin res. split_and!.
    + unfold res. rewrite on_message_state, decide_True by done.
      by eapply join_rooms_member.
    + unfold res. rewrite on_message_state, decide_True by done.
      by rewrite vars_of_join, decide_True.
    + apply on_message_not_uncaught.
Qed.

Lemma one_room_per_connection_witness :
  let σ := run init two_in_R in
  let res := on_message σ all_open 0 (join_msg "R" 20 "A2") in
  guarded join_same_room init two_in_R
  ∧ rooms σ !! "R" = Some [0; 1]
  ∧ at_most_one_room (rooms σ)
  ∧ rooms (state res) = rooms σ
  ∧ vars_of (state res) 0 = {| roomId := "R"; userId := 20 |}.
Proof.
  intros σ res.
  assert (Hpre : guarded join_same_room init two_in_R)
    by (apply (bool_decide_unpack _); vm_compute; exact I).
  assert (Hs : rooms σ !! "R" = Some [0; 1]) by (vm_compute; reflexivity).
  destruct (one_room_per_connection two_in_R Hpre) as [Hone Hre].
  destruct (Hre all_open 0 (data.mk "join" "R" 20 (Some "A2") None None None)
              [0; 1] eq_refl Hs ltac:(by left)) as (Hrooms & Hvars & _).
  split_and!; done.
Defined.

(** ** C6: the acknowledgment of a join *)

(** C6 (fails on the code).  [rooms] is a plain object, so for a room
    identifier that names a property of [Object.prototype] the test
    [!rooms[roomId]] finds the inherited value: no room is created,
    [rooms[roomId].add] throws, and the join ends in the [catch] block with
    nobody registered and nothing sent, so its [room_info] never goes out.
    Evaluated for a first join to ["constructor"] and for every inherited
    name. *)
Theorem join_to_inherited_name_is_not_acknowledged :
  let res := on_message init all_open 0 (join_msg "constructor" 10 "A") in
  sent res = []
  ∧ outcome res = Caught
  ∧ rooms (state res) !! "constructor" = None
  ∧ vars_of (state res) 0 = {| roomId := "constructor"; userId := 10 |}
  ∧ Forall (λ r, sent (on_message init all_open 0 (join_msg r 10 "A")) = []
                 ∧ outcome (on_message init all_open 0 (join_msg r 10 "A"))
                   = Caught)
      Object_prototype.
Proof.
  intros res. split_and!; try (vm_compute; reflexivity).
  unfold Object_prototype. repeat constructor; vm_compute; reflexivity.
Qed.

(** ** C7: malformed and out-of-context events *)

(** C7.  An event that cannot be decoded, has an unknown [type], or is a
    [code_update] or [chat_message] on a connection whose [roomId] names no
    registered room causes no [send], leaves the state (registry and
    connection variables) as it is, and ends inside the handler.  The second
    part covers the event that arrives before any join: after a trace of
    well-formed joins the initial [roomId] names no room. *)
Theorem malformed_events_are_dropped σ tp ws m :
  (out_of_context σ ws m →
   let res := on_message σ tp ws m in
   sent res = [] ∧ state res = σ ∧ outcome res ≠ Uncaught)
  ∧ (∀ evs d,
       σ = run init evs → guarded join_allowed init evs →
       last_join evs ws = fresh_vars →
       data.type d = "code_update" ∨ data.type d = "chat_message" →
       out_of_context σ ws (Decoded d)).
Proof.
  split.
  - intros Hctx res. split_and!; [| | apply on_message_not_uncaught].
    + destruct m as [| d]; [done |]. unfold res, on_message. simpl in Hctx.
      unfold known_type in Hctx.
      repeat case_decide; try done; try (destruct Hctx as [Hctx | [Hty Hnone]]; [tauto |]);
        try (destruct Hty; congruence).
      * unfold on_code_update.
        pose proof (broadcast_absent (rooms σ) tp _
                      (code_update (data.code d) (data.language d)
                         (data.userId d) (data.username d) (now tp 0))
                      (Js.Num (userId (vars_of σ ws))) Hnone) as Hout.
        destruct (broadcastToRoom _ _ _ _ _) as [out threw]. by simpl in *.
      * unfold on_chat_message.
        pose proof (broadcast_absent (rooms σ) tp _
                      (chat_message (data.message d) (data.userId d)
                         (data.username d) (now tp 0)) Js.Null Hnone) as Hout.
        destruct (broadcastToRoom _ _ _ _ _) as [out threw]. by simpl in *.
    + destruct m as [| d]; [done |]. unfold res. rewrite on_message_state.
      case_decide as Ht; [| done]. exfalso. simpl in Hctx. unfold known_type in Hctx.
      destruct Hctx as [Hctx | [[Hty | Hty] _]]; [tauto | congruence | congruence].
  - intros evs d -> Hpre Hlast Hty. right. split; [done |].
    rewrite vars_of_run, Hlast. simpl. by apply no_room_named_empty.
Qed.

Lemma malformed_events_are_dropped_witness :
  let σ := run init three_in_R in
  out_of_context σ 5 (code_msg "R" 15 "E" "x" "js")
  ∧ sent (on_message σ all_open 5 (code_msg "R" 15 "E" "x" "js")) = []
  ∧ state (on_message σ all_open 5 (code_msg "R" 15 "E" "x" "js")) = σ.
Proof.
  intros σ.
  destruct (malformed_events_are_dropped σ all_open 5 (code_msg "R" 15 "E" "x" "js"))
    as [Hdrop Hbefore].
  assert (Hctx : out_of_context σ 5 (code_msg "R" 15 "E" "x" "js")).
  { apply (Hbefore three_in_R).
    - reflexivity.
    - apply (bool_decide_unpack _); vm_compute; exact I.
    - vm_compute; reflexivity.
    - by left. }
  destruct (Hdrop Hctx) as (Hsent & Hstate & _).
  split_and!; done.
Defined.

(** ** C8: leaving *)




(** ** C9: a [send] that throws *)

(** C9, as stated, fails: [forEach] has no handler around [client.send], so
    the first [send] that throws ends the iteration.  With members [0] and
    [1], both open, and a throwing [send] on [0], nothing is sent to [1]; in
    the message handler the exception is caught, in the close handler it
    leaves the handler. *)
Lemma throwing_send_aborts_broadcast :
  let msg := user_left 12 "t" in
  1 ∈ [0; 1]
  ∧ is_open first_throws 1 = true
  ∧ send_throws first_throws 1 = false
  ∧ forEach first_throws msg Js.Null [0; 1] = ([(0, msg)], true)
  ∧ ¬ ((1, msg) ∈ fst (forEach first_throws msg Js.Null [0; 1]))
  ∧ sent (on_close (run init three_in_R) first_throws 2) = [(0, msg)]
  ∧ outcome (on_close (run init three_in_R) first_throws 2) = Uncaught
  ∧ outcome (on_message (run init three_in_R) first_throws 2
               (chat_msg "R" 12 "C" "hi")) = Caught.
Proof.
  intros msg. split_and!; try (vm_compute; reflexivity).
  - apply elem_of_cons. right. by left.
  - vm_compute. intros Hin. apply elem_of_cons in Hin as [Heq | Hin].
    + discriminate Heq.
    + by apply not_elem_of_nil in Hin.
Qed.

(** C9, amended.  A broadcast skips the members whose connection is not
    open, and they do not affect the others: when no [send] to an open
    member throws, [send] is called once for every open member, in insertion
    order, and the broadcast completes.  When a [send] throws, the
    iteration stops there: the open members before it have been served, the
    members after it are not tried, and the exception leaves
    [broadcastToRoom]. *)
Theorem broadcast_skips_closed_members rms tp r message ex s :
  rms !! r = Some s →
  (∀ c, ex ≠ Js.Ref c) →
  ((∀ c, c ∈ s → is_open tp c → send_throws tp c = false) →
   broadcastToRoom rms tp r message ex
   = (to_all message (open_members tp s), false))
  ∧ (∀ s1 c s2,
       s = s1 ++ c :: s2 →
       is_open tp c → send_throws tp c = true →
       (∀ c', c' ∈ s1 → is_open tp c' → send_throws tp c' = false) →
       broadcastToRoom rms tp r message ex
       = (to_all message (open_members tp s1) ++ [(c, message)], true)).
Proof.
  intros Hs Hex. unfold broadcastToRoom. rewrite (rooms_get_Some _ _ _ Hs). split.
  - intros Hok. apply forEach_open_only; [| done].
    intros c. by apply no_exclusion.
  - intros s1 c s2 -> Hopen Hthrow Hok. by apply forEach_until_throw.
Qed.

Lemma broadcast_skips_closed_members_witness :
  let rms := rooms (run init three_in_R) in
  let msg := user_left 12 "t" in
  rms !! "R" = Some [0; 1; 2]
  ∧ broadcastToRoom rms one_closing "R" msg Js.Null = ([(0, msg); (2, msg)], false)
  ∧ broadcastToRoom rms first_throws "R" msg Js.Null = ([(0, msg)], true).
Proof.
  intros rms msg.
  assert (Hs : rms !! "R" = Some [0; 1; 2]) by (vm_compute; reflexivity).
  assert (Hex : ∀ c, Js.Null ≠ Js.Ref c) by (intros c; discriminate).
  destruct (broadcast_skips_closed_members rms one_closing "R" msg Js.Null
              [0; 1; 2] Hs Hex) as [Hskip _].
  destruct (broadcast_skips_closed_members rms first_throws "R" msg Js.Null
              [0; 1; 2] Hs Hex) as [_ Hstop].
  split; [exact Hs |]. split.
  - apply Hskip. intros c _ _. reflexivity.
  - apply (Hstop [] 0 [1; 2]).
    + reflexivity.
    + vm_compute. exact I.
    + reflexivity.
    + intros c' Hin. by apply not_elem_of_nil in Hin.
Defined.

(** ** C10: the room of a broadcast *)

(** C10.  A [code_update] or [chat_message] is broadcast to the room whose
    identifier the connection recorded at its most recent join; the [roomId]
    field of the envelope is not read.  Replacing it by any other value
    gives the same result; every recipient is a member of the joined room;
    and when no [send] throws the recipients are exactly the open members of
    the joined room. *)
Theorem envelope_roomId_is_ignored evs tp ws d r' :
  data.type d = "code_update" ∨ data.type d = "chat_message" →
  let σ := run init evs in
  let joined := roomId (last_join evs ws) in
  let res := on_message σ tp ws (Decoded d) in
  on_message σ tp ws (Decoded (with_roomId r' d)) = res
  ∧ state res = σ
  ∧ (∀ p, p ∈ sent res → member (rooms σ) joined p.1)
  ∧ (no_throw tp → ∀ s, rooms σ !! joined = Some s →
       (sent res).*1 = open_members tp s).
Proof.
  intros Hty σ joined res.
  assert (Hjoined : roomId (vars_of σ ws) = joined)
    by (unfold joined; by rewrite <- vars_of_run).
  assert (Hnj : data.type d ≠ "join") by (destruct Hty as [-> | ->]; discriminate).
  split_and!.
  - unfold res, on_message, on_join, on_code_update, on_chat_message, with_roomId.
    cbn [data.type data.userId data.username data.code data.language data.message].
    by rewrite !(decide_False (P := data.type d = "join")).
  - unfold res. by rewrite on_message_state, decide_False.
  - intros p. unfold res, on_message. rewrite decide_False by done.
    destruct Hty as [Ht | Ht]; rewrite Ht; simpl.
    + unfold on_code_update. rewrite Hjoined.
      destruct (broadcastToRoom _ _ _ _ _) as [out threw] eqn:Hb. simpl.
      intros Hin. eapply broadcast_recipients. by rewrite Hb.
    + unfold on_chat_message. rewrite Hjoined.
      destruct (broadcastToRoom _ _ _ _ _) as [out threw] eqn:Hb. simpl.
      intros Hin. eapply broadcast_recipients. by rewrite Hb.
  - intros Hok s Hs. rewrite <- Hjoined in Hs.
    unfold res, on_message. rewrite decide_False by done.
    destruct Hty as [Ht | Ht]; rewrite Ht; simpl.
    + erewrite on_code_update_ok by done. apply fst_to_all.
    + erewrite on_chat_message_ok by done. apply fst_to_all.
Qed.

Lemma envelope_roomId_is_ignored_witness :
  let σ := run init two_rooms in
  rooms σ !! "R" = Some [0; 1; 2]
  ∧ rooms σ !! "S" = Some [3]
  ∧ (sent (on_message σ all_open 1 (code_msg "S" 11 "B" "x" "js"))).*1 = [0; 1; 2]
  ∧ on_message σ all_open 1 (code_msg "S" 11 "B" "x" "js")
    = on_message σ all_open 1 (code_msg "R" 11 "B" "x" "js").
Proof.
  intros σ.
  assert (HR : rooms σ !! "R" = Some [0; 1; 2]) by (vm_compute; reflexivity).
  destruct (envelope_roomId_is_ignored two_rooms all_open 1
              (data.mk "code_update" "R" 11 (Some "B") (Some "x") (Some "js") None)
              "S" ltac:(by left)) as (Hsame & _ & _ & Hall).
  split; [exact HR |]. split; [vm_compute; reflexivity |]. subst σ. split.
  - change (code_msg "S" 11 "B" "x" "js")
      with (Decoded (with_roomId "S"
              (data.mk "code_update" "R" 11 (Some "B") (Some "x") (Some "js") None))).
    rewrite Hsame. apply (Hall (λ _, eq_refl) [0; 1; 2]). exact HR.
  - exact Hsame.
Defined.

(** * Further properties of the relay *)

(** ** Facts used below *)

Lemma State_eq (a b : State) : rooms a = rooms b → conns a = conns b → a = b.
Proof. destruct a, b. simpl. by intros -> ->. Qed.




Lemma broadcast_to_open rms tp r message ex p :
  p ∈ (broadcastToRoom rms tp r message ex).1 →
  is_open tp p.1 ∧ is_room_info p = is_room_info (p.1, message).
Proof.
  unfold broadcastToRoom. destruct (rooms_get rms r) as [s | |].
  - intros (_ & Hmsg & Hopen)%forEach_recipients. split; [done |].
    unfold is_room_info. simpl. by rewrite Hmsg.
  - by intros ?%not_elem_of_nil.
  - by intros ?%not_elem_of_nil.
Qed.



(** ** The state does not depend on the transport *)

(** X1.  The registry and the connection variables after an event are the
    same whatever the transport does: readiness of the peers and [send]
    failures never change, undo or skip a membership change. *)
Theorem state_independent_of_transport σ tp tp' e :
  state (step σ tp e) = state (step σ tp' e).
Proof.
  destruct e as [ws m | ws]; cbn [step].
  - by rewrite !on_message_state.
  - apply State_eq.
    + by rewrite !on_close_rooms.
    + by rewrite !on_close_conns.
Qed.

(** ** How the handlers end *)



(** ** What a join and a close change *)

(** X4.  A close removes the leaver from the room its [roomId] variable
    names and changes nothing else: the connection variables, the other
    rooms and the other members stay.  In particular a connection that is
    still a member of a room its [roomId] no longer names (after a second
    join to another room) stays a member of that room when it closes. *)
Theorem close_removes_only_the_leaver σ tp ws :
  let σ' := state (on_close σ tp ws) in
  let r := roomId (vars_of σ ws) in
  conns σ' = conns σ
  ∧ (∀ k, k ≠ r → rooms σ' !! k = rooms σ !! k)
  ∧ (∀ k c, member (rooms σ') k c
            ↔ member (rooms σ) k c ∧ ¬ (r ≠ "" ∧ k = r ∧ c = ws))
  ∧ (∀ k, k ≠ r → member (rooms σ) k ws → member (rooms σ') k ws).
Proof.
  intros σ' r. split_and!.
  - apply on_close_conns.
  - intros k Hk. unfold σ'. rewrite on_close_rooms. case_decide; [| done].
    rewrite leave_rooms_lookup. by rewrite decide_False.
  - intros k c. apply member_close.
  - intros k Hk Hin. apply member_close. split; [done |]. by intros (_ & ? & _).
Qed.

(** X5.  A join records the envelope's [roomId] and [userId] for the joiner
    in every case.  Unless the [roomId] names an inherited property of the
    registry object, it adds the joiner to the room the envelope names, at
    the end of its iteration order; when it does name one, the registry
    stays as it was and the joiner is in no room more than before.  The
    other rooms, the other members and the variables of the other
    connections stay, and the join does not remove the joiner from any room
    it was in. *)
Theorem join_adds_only_the_joiner σ tp ws d :
  data.type d = "join" →
  let σ' := state (on_message σ tp ws (Decoded d)) in
  (∀ k c, member (rooms σ') k c
          ↔ (k = data.roomId d ∧ c = ws
             ∧ ¬ inherited (rooms σ) (data.roomId d))
            ∨ member (rooms σ) k c)
  ∧ (∀ k, k ≠ data.roomId d → rooms σ' !! k = rooms σ !! k)
  ∧ (∀ s, rooms σ !! data.roomId d = Some s → ws ∉ s →
       rooms σ' !! data.roomId d = Some (s ++ [ws]))
  ∧ (rooms σ !! data.roomId d = None →
     rooms σ' !! data.roomId d
     = if decide (data.roomId d ∈ Object_prototype) then None else Some [ws])
  ∧ (inherited (rooms σ) (data.roomId d) → rooms σ' = rooms σ)
  ∧ vars_of σ' ws = join_vars d
  ∧ (∀ c, c ≠ ws → vars_of σ' c = vars_of σ c).
Proof.
  intros Ht σ'. unfold σ'. rewrite on_message_state, decide_True by done.
  cbn [rooms]. split_and!.
  - intros k c. apply member_join.
  - intros k Hk. by rewrite join_rooms_lookup_ne.
  - intros s Hs Hnin.
    rewrite join_rooms_lookup, decide_True, Hs; [| done | intros [? _]; congruence].
    simpl. unfold Set_add. by rewrite decide_False.
  - intros Hs. case_decide as Hp.
    + by rewrite join_rooms_inherited.
    + rewrite join_rooms_lookup, decide_True, Hs; [done | done | by intros [_ ?]].
  - intros Hin. by apply join_rooms_inherited.
  - by rewrite vars_of_join, decide_True.
  - intros c Hc. by rewrite vars_of_join, decide_False.
Qed.

Lemma join_adds_only_the_joiner_witness :
  let σ := run init two_in_R in
  let σ' := state (on_message σ all_open 2 (join_msg "R" 12 "C")) in
  let σ'' := state (on_message σ all_open 2 (join_msg "toString" 12 "C")) in
  rooms σ !! "R" = Some [0; 1]
  ∧ rooms σ' !! "R" = Some [0; 1; 2]
  ∧ vars_of σ' 2 = {| roomId := "R"; userId := 12 |}
  ∧ rooms σ'' = rooms σ
  ∧ vars_of σ'' 2 = {| roomId := "toString"; userId := 12 |}.
Proof.
  intros σ σ' σ''.
  assert (Hs : rooms σ !! "R" = Some [0; 1]) by (vm_compute; reflexivity).
  destruct (join_adds_only_the_joiner σ all_open 2
              (data.mk "join" "R" 12 (Some "C") None None None) eq_refl)
    as (_ & _ & Hadd & _ & _ & Hvars & _).
  destruct (join_adds_only_the_joiner σ all_open 2
              (data.mk "join" "toString" 12 (Some "C") None None None) eq_refl)
    as (_ & _ & _ & _ & Hsame & Hvars' & _).
  split; [exact Hs |]. split; [| split; [exact Hvars | split; [| exact Hvars']]].
  - apply (Hadd [0; 1] Hs). vm_compute. intros Hin.
    repeat (apply elem_of_cons in Hin as [Heq | Hin]; [discriminate Heq |]).
    by apply not_elem_of_nil in Hin.
  - apply Hsame. split; [vm_compute; reflexivity |].
    apply (bool_decide_unpack _). vm_compute. exact I.
Defined.





(** ** What is sent, and to whom *)

(** X7.  A handler never calls [send] with a broadcast on a connection that
    is not open: every call made for an event, other than the [room_info]
    acknowledgment of a join, is addressed to a connection whose
    [readyState] is [OPEN]. *)
Theorem broadcasts_go_to_open_connections σ tp e p :
  p ∈ sent (step σ tp e) → is_room_info p = false → is_open tp p.1.
Proof.
  destruct e as [ws [| d] | ws]; cbn [step on_message].
  - by intros ?%not_elem_of_nil.
  - repeat case_decide.
    + destruct (decide (inherited (rooms σ) (data.roomId d))) as [Hinh | Hinh].
      { rewrite on_join_inherited by done. by intros ?%not_elem_of_nil. }
      unfold on_join. cbn [roomId userId].
      destruct (create_then_add (rooms σ) (data.roomId d) ws Hinh) as [[s Hs] _].
      cbn zeta in Hs. rewrite Hs.
      destruct (broadcastToRoom _ _ _ _ _) as [out threw] eqn:Hb.
      assert (Hout : p ∈ out → is_open tp p.1).
      { intros Hin. eapply broadcast_to_open. by rewrite Hb. }
      destruct threw; cbn [sent]; [by intros ?; auto |].
      intros [Hin | Hin]%elem_of_app; [auto |].
      apply list_elem_of_singleton in Hin as ->. done.
    + unfold on_code_update.
      destruct (broadcastToRoom _ _ _ _ _) as [out threw] eqn:Hb. cbn [sent].
      intros Hin _. eapply broadcast_to_open. by rewrite Hb.
    + unfold on_chat_message.
      destruct (broadcastToRoom _ _ _ _ _) as [out threw] eqn:Hb. cbn [sent].
      intros Hin _. eapply broadcast_to_open. by rewrite Hb.
    + by intros ?%not_elem_of_nil.
  - unfold on_close. case_decide; [| by intros ?%not_elem_of_nil].
    destruct (rooms_get _ _); [| by intros ?%not_elem_of_nil ..].
    destruct (broadcastToRoom _ _ _ _ _) as [out threw] eqn:Hb.
    assert (Hout : p ∈ out → is_open tp p.1).
    { intros Hin. eapply broadcast_to_open. by rewrite Hb. }
    destruct threw; cbn [sent]; auto.
Qed.

Lemma broadcasts_go_to_open_connections_witness :
  let msg := user_left 12 "t" in
  sent (step (run init three_in_R) one_closing (Close 2)) = [(0, msg)]
  ∧ is_open one_closing 0.
Proof.
  intros msg.
  assert (Hsent : sent (step (run init three_in_R) one_closing (Close 2))
                  = [(0, msg)]) by (vm_compute; reflexivity).
  split; [exact Hsent |].
  apply (broadcasts_go_to_open_connections (run init three_in_R) one_closing
           (Close 2) (0, msg)).
  - rewrite Hsent. by left.
  - reflexivity.
Defined.

(** X8.  A join whose room identifier does not name a property of
    [Object.prototype], over a transport whose [send] does not throw, first
    sends one [user_joined], carrying the envelope's [userId] and
    [username], to every open member of the room in insertion order, the
    joiner included when it is open, and then, as its last call, the
    [room_info] to the joiner.  In a reachable state each open member gets
    exactly one [user_joined]. *)
Theorem join_announces_then_acknowledges σ tp ws d :
  reachable σ →
  data.type d = "join" →
  data.roomId d ∉ Object_prototype →
  no_throw tp →
  let s' := Set_add ws (default [] (rooms σ !! data.roomId d)) in
  let hello := user_joined (data.userId d) (data.username d) (now tp 0) in
  let announce := to_all hello (open_members tp s') in
  sent (on_message σ tp ws (Decoded d))
  = announce ++ [(ws, room_info (data.roomId d) (length s') (now tp 1))]
  ∧ rooms (state (on_message σ tp ws (Decoded d))) !! data.roomId d = Some s'
  ∧ (∀ m, m ∈ s' → is_open tp m →
       filter (λ p, p.1 = m) announce = [(m, hello)])
  ∧ (is_open tp ws → (ws, hello) ∈ announce).
Proof.
  intros Hreach Ht Hp Hok s' hello announce.
  assert (Hown : ¬ inherited (rooms σ) (data.roomId d)) by (by intros [_ ?]).
  unfold on_message. rewrite decide_True by done.
  rewrite on_join_ok by done. cbn [sent state rooms].
  assert (Hnd : NoDup s').
  { apply NoDup_Set_add.
    destruct (rooms σ !! data.roomId d) as [s |] eqn:Hs; simpl; [| constructor].
    by eapply (reachable_rooms_NoDup σ). }
  split_and!.
  - done.
  - by rewrite join_rooms_lookup, decide_True.
  - intros m Hm Hopen. apply to_all_exactly_one.
    + by apply NoDup_filter.
    + by apply elem_of_open_members.
  - intros Hopen. apply elem_of_to_all, elem_of_open_members.
    split; [done |]. apply elem_of_Set_add. by left.
Qed.

Lemma join_announces_then_acknowledges_witness :
  sent (on_message (run init two_in_R) one_closing 2 (join_msg "R" 12 "C"))
  = [ (0, user_joined 12 (Some "C") "t"); (2, user_joined 12 (Some "C") "t");
      (2, room_info "R" 3 "t") ].
Proof.
  apply (join_announces_then_acknowledges (run init two_in_R) one_closing 2
           (data.mk "join" "R" 12 (Some "C") None None None)).
  - apply reachable_run. constructor.
  - reflexivity.
  - apply (bool_decide_unpack _). vm_compute. exact I.
  - intros c. reflexivity.
Defined.

(** X9.  A [code_update] from a connection whose [roomId] names a room is
    sent, over a transport whose [send] does not throw, to every open member
    of that room in insertion order, the sender included when it is open.
    The envelope relayed carries the [code], [language], [userId] and
    [username] of the inbound envelope, not the [userId] recorded at the
    join; the state is unchanged. *)
Theorem code_update_is_relayed σ tp ws d s :
  data.type d = "code_update" →
  no_throw tp →
  rooms σ !! roomId (vars_of σ ws) = Some s →
  let res := on_message σ tp ws (Decoded d) in
  let msg := code_update (data.code d) (data.language d) (data.userId d)
               (data.username d) (now tp 0) in
  sent res = to_all msg (open_members tp s)
  ∧ (ws ∈ s → is_open tp ws → (ws, msg) ∈ sent res)
  ∧ state res = σ
  ∧ outcome res = Completed.
Proof.
  intros Ht Hok Hs res msg.
  assert (Hres : res = {| state := σ; sent := to_all msg (open_members tp s);
                          outcome := Completed |}).
  { unfold res, on_message. rewrite Ht. simpl. by apply on_code_update_ok. }
  rewrite Hres. cbn [sent state outcome]. split_and!; try done.
  intros Hin Hopen. by apply elem_of_to_all, elem_of_open_members.
Qed.

Lemma code_update_is_relayed_witness :
  let σ := run init two_in_R in
  let msg := code_update (Some "x") (Some "js") 99 (Some "Z") "t" in
  vars_of σ 1 = {| roomId := "R"; userId := 11 |}
  ∧ sent (on_message σ all_open 1 (code_msg "R" 99 "Z" "x" "js"))
    = [(0, msg); (1, msg)].
Proof.
  intros σ msg. split; [vm_compute; reflexivity |].
  apply (code_update_is_relayed σ all_open 1
           (data.mk "code_update" "R" 99 (Some "Z") (Some "x") (Some "js") None)
           [0; 1]).
  - reflexivity.
  - intros c. reflexivity.
  - vm_compute. reflexivity.
Defined.

(** ** Where members come from *)

(** X10.  Only a join registers a connection: whatever the events, a
    connection is a member of a room only if a join that named this room
    arrived on this connection. *)
Theorem members_have_joined evs r c :
  member (rooms (run init evs)) r c →
  ∃ tp d, (tp, Message c (Decoded d)) ∈ evs
          ∧ data.type d = "join" ∧ data.roomId d = r.
Proof.
  induction evs as [| [tp e] evs IH] using rev_ind.
  - intros (s & Hs & _). by destruct (lookup_empty_Some r s).
  - rewrite run_snoc. intros Hin.
    assert (Hold : member (rooms (run init evs)) r c →
                   ∃ tp0 d, (tp0, Message c (Decoded d)) ∈ evs ++ [(tp, e)]
                            ∧ data.type d = "join" ∧ data.roomId d = r).
    { intros (tp0 & d & Hev & Hd)%IH. exists tp0, d.
      split; [| done]. apply elem_of_app. by left. }
    destruct (join_of e) as [[ws d] |] eqn:Hjoin.
    + rewrite (step_join _ _ _ _ _ Hjoin) in Hin. cbn [rooms] in Hin.
      apply member_join in Hin as [(-> & -> & _) | Hin]; [| auto].
      exists tp, d. destruct e as [ws' [| d'] | ws']; try done.
      cbn [join_of] in Hjoin. case_decide as Ht; [| done].
      injection Hjoin as -> ->. split; [| done].
      apply elem_of_app. right. by left.
    + destruct e as [ws m | ws].
      * rewrite step_other in Hin by done. auto.
      * cbn [step] in Hin. apply member_close in Hin as [Hin _]. auto.
Qed.

Lemma members_have_joined_witness :
  member (rooms (run init come_and_go)) "R" 1
  ∧ ∃ tp d, (tp, Message 1 (Decoded d)) ∈ come_and_go
            ∧ data.type d = "join" ∧ data.roomId d = "R".
Proof.
  assert (Hin : member (rooms (run init come_and_go)) "R" 1).
  { exists [1]. split; [vm_compute; reflexivity | by left]. }
  split; [exact Hin |].
  exact (members_have_joined come_and_go "R" 1 Hin).
Defined.

(** X12.  The [roomId] of a connection that has not joined is the empty
    string, which the broadcast takes as a room identifier like any other:
    when a room named by the empty string exists, a [chat_message] or
    [code_update] from a connection that never joined is sent to its open
    members. *)
Theorem events_before_join_reach_empty_named_room σ tp ws d s :
  conns σ !! ws = None →
  rooms σ !! "" = Some s →
  no_throw tp →
  (data.type d = "chat_message" →
   sent (on_message σ tp ws (Decoded d))
   = to_all (chat_message (data.message d) (data.userId d) (data.username d)
               (now tp 0)) (open_members tp s))
  ∧ (data.type d = "code_update" →
     sent (on_message σ tp ws (Decoded d))
     = to_all (code_update (data.code d) (data.language d) (data.userId d)
                 (data.username d) (now tp 0)) (open_members tp s)).
Proof.
  intros Hnew Hs Hok.
  assert (Hroom : rooms σ !! roomId (vars_of σ ws) = Some s).
  { unfold vars_of. by rewrite Hnew. }
  split; intros Ht; unfold on_message; rewrite Ht; simpl.
  - by erewrite on_chat_message_ok.
  - by erewrite on_code_update_ok.
Qed.

Lemma events_before_join_reach_empty_named_room_witness :
  let σ := run init empty_named_room in
  let msg := chat_message (Some "hi") 15 (Some "E") "t" in
  conns σ !! 5 = None
  ∧ rooms σ !! "" = Some [0; 1]
  ∧ sent (on_message σ all_open 5 (chat_msg "R" 15 "E" "hi"))
    = [(0, msg); (1, msg)].
Proof.
  intros σ msg.
  assert (Hnew : conns σ !! 5 = None) by (vm_compute; reflexivity).
  assert (Hs : rooms σ !! "" = Some [0; 1]) by (vm_compute; reflexivity).
  destruct (events_before_join_reach_empty_named_room σ all_open 5
              (data.mk "chat_message" "R" 15 (Some "E") None None (Some "hi"))
              [0; 1] Hnew Hs (λ _, eq_refl)) as [Hchat _].
  split; [exact Hnew |]. split; [exact Hs |]. exact (Hchat eq_refl).
Defined.

(** ** The acknowledgment of a join *)

(** X15.  A join whose room identifier does not name a property of
    [Object.prototype], handled in a reachable state over a transport whose
    [send] does not throw, sends exactly one [room_info]; it is addressed to
    the joining connection, and its [userCount] is the number of members of
    the room once the joiner is in it. *)
Theorem join_is_acknowledged_once σ tp ws d :
  reachable σ →
  data.type d = "join" →
  data.roomId d ∉ Object_prototype →
  no_throw tp →
  let res := on_message σ tp ws (Decoded d) in
  ∃ s', rooms (state res) !! data.roomId d = Some s'
        ∧ NoDup s' ∧ ws ∈ s'
        ∧ filter (λ p, is_room_info p) (sent res)
          = [(ws, room_info (data.roomId d) (length s') (now tp 1))]
        ∧ (∀ p, p ∈ sent res → is_room_info p → p.1 = ws)
        ∧ outcome res = Completed.
Proof.
  intros Hreach Ht Hp Hok res.
  assert (Hown : ¬ inherited (rooms σ) (data.roomId d)) by (by intros [_ ?]).
  set (s' := Set_add ws (default [] (rooms σ !! data.roomId d))).
  assert (Hres : res = _) by (unfold res, on_message; rewrite decide_True by done;
                              by apply on_join_ok).
  assert (Hinfos : filter (λ p, is_room_info p) (sent res)
                   = [(ws, room_info (data.roomId d) (length s') (now tp 1))]).
  { rewrite Hres. cbn [sent]. by apply room_infos_of_join. }
  exists s'. split_and!.
  - rewrite Hres. cbn [state rooms].
    by rewrite join_rooms_lookup, decide_True.
  - apply NoDup_Set_add.
    destruct (rooms σ !! data.roomId d) as [s |] eqn:Hs; simpl; [| constructor].
    by eapply (reachable_rooms_NoDup σ).
  - apply elem_of_Set_add. by left.
  - done.
  - intros p Hin Hinfo.
    assert (p ∈ filter (λ p, is_room_info p) (sent res)) as Hp'
      by (by apply list_elem_of_filter).
    rewrite Hinfos in Hp'. by apply list_elem_of_singleton in Hp' as ->.
  - by rewrite Hres.
Qed.

Lemma join_is_acknowledged_once_witness :
  let σ := state (on_message init all_open 0 (join_msg "R" 10 "A")) in
  let res := on_message σ all_open 1 (join_msg "R" 11 "B") in
  rooms σ !! "R" = Some [0]
  ∧ rooms (state res) !! "R" = Some [0; 1]
  ∧ filter (λ p, is_room_info p) (sent res) = [(1, room_info "R" 2 "t")].
Proof.
  intros σ res.
  destruct (join_is_acknowledged_once σ all_open 1
              (data.mk "join" "R" 11 (Some "B") None None None))
    as (s' & Hs' & _ & _ & Hinfos & _).
  - apply (reach_step init all_open (Message 0 (join_msg "R" 10 "A"))). constructor.
  - reflexivity.
  - apply (bool_decide_unpack _). vm_compute. exact I.
  - intros c. reflexivity.
  - assert (Hs : rooms (state res) !! "R" = Some [0; 1]) by (vm_compute; reflexivity).
    split; [vm_compute; reflexivity |]. split; [exact Hs |].
    assert (Heq : Some s' = Some [0; 1]) by exact (eq_trans (eq_sym Hs') Hs).
    injection Heq as ->. exact Hinfos.
Defined.
